(** * stevensStringLib: a shallow embedding of [stevensStringLib.h]

    The functions of the header that the specification talks about are
    translated here one by one: [contains], [separate], [isFloat], [trim],
    [countLines], [wrapToWidth] and [findAll], together with the pieces of
    [std::string] and [std::istringstream] they call.

    A [std::string] is a list of characters.  A [size_t] is an integer in
    [0, 2^64) and an [int] one in [-2^31, 2^31); every conversion between
    the two that the C++ code performs implicitly is written out.  A call
    that may throw, or whose behaviour is undefined, returns an [outcome]. *)

From Stdlib Require Import List ZArith Lia Bool Ascii Sorted.
From Stdlib Require String.
Import ListNotations String.StringSyntax.

Local Open Scope Z_scope.
Delimit Scope string_scope with string.

(** ** Characters and strings *)

Abbreviation str := (list ascii) (only parsing).

(** Literals are written as Rocq strings and unfolded to character lists. *)
Definition lit (s : String.string) : str := String.list_ascii_of_string s.
Arguments lit s%_string.

Definition newline : ascii := "010"%char.
Definition space : ascii := " "%char.

Definition len (s : str) : Z := Z.of_nat (length s).

Definition str_eqb (a b : str) : bool :=
  if list_eq_dec ascii_dec a b then true else false.

(** ** Machine integers *)

Module Int.

Definition size_max : Z := 2 ^ 64 - 1.
Definition int_max : Z := 2 ^ 31 - 1.
Definition int_min : Z := - 2 ^ 31.

(** [std::string::npos] is [size_t(-1)]. *)
Definition npos : Z := size_max.

(** Conversion to [size_t]: reduction modulo [2^64]. *)
Definition to_size_t (z : Z) : Z := z mod 2 ^ 64.

(** Conversion to [int], and the result of [int] arithmetic: the value
    is wrapped into [-2^31, 2^31), as two's complement machines compute
    it. *)
Definition to_int (z : Z) : Z := (z + 2 ^ 31) mod 2 ^ 32 - 2 ^ 31.

End Int.

Import Int.

(** ** Outcomes of a call *)

Inductive exn : Type :=
| out_of_range
| invalid_argument.

Inductive outcome (A : Type) : Type :=
| Ret (a : A)          (* normal return *)
| Throw (e : exn)      (* a C++ exception leaves the function *)
| Undefined            (* undefined behaviour was executed *)
| OutOfFuel.           (* the loop bound of the model was too small *)

Arguments Ret {A} a.
Arguments Throw {A} e.
Arguments Undefined {A}.
Arguments OutOfFuel {A}.

Definition bind {A B : Type} (m : outcome A) (k : A -> outcome B) : outcome B :=
  match m with
  | Ret a => k a
  | Throw e => Throw e
  | Undefined => Undefined
  | OutOfFuel => OutOfFuel
  end.

Notation "x <- m ;; k" := (bind m (fun x => k))
  (at level 61, m at next level, right associativity).

(** ** The parts of [std::string] that the library calls *)

Module StdString.

(** [is_prefix p s]: the characters of [p] are the first characters of [s]. *)
Fixpoint is_prefix (p s : str) : bool :=
  match p, s with
  | [], _ => true
  | _ :: _, [] => false
  | a :: p', b :: s' => Ascii.eqb a b && is_prefix p' s'
  end.

(** Offset of the first place of [s] where [sub] starts. *)
Fixpoint search (sub s : str) : option nat :=
  match s with
  | [] => if is_prefix sub [] then Some 0%nat else None
  | _ :: s' =>
      if is_prefix sub s then Some 0%nat else option_map S (search sub s')
  end.

(** [s.find(sub, pos)]: the lowest [xpos >= pos] such that [sub] occurs at
    [xpos] and ends within [s]; [npos] when there is none. *)
Definition find (s sub : str) (pos : Z) : Z :=
  if len s <? pos then npos
  else match search sub (skipn (Z.to_nat pos) s) with
       | Some k => pos + Z.of_nat k
       | None => npos
       end.

(** Highest offset [k' <= k] of [s] where [sub] starts. *)
Fixpoint rsearch (sub s : str) (k : nat) : option nat :=
  if is_prefix sub (skipn k s) then Some k
  else match k with
       | O => None
       | S k' => rsearch sub s k'
       end.

(** [s.rfind(sub, pos)]: the highest [xpos <= pos] such that [sub] occurs
    at [xpos] and ends within [s]; [npos] when there is none. *)
Definition rfind (s sub : str) (pos : Z) : Z :=
  if len s <? len sub then npos
  else match rsearch sub s (Z.to_nat (Z.min pos (len s - len sub))) with
       | Some k => Z.of_nat k
       | None => npos
       end.

(** [s.substr(pos, n)] throws [std::out_of_range] when [pos > size()] and
    otherwise copies at most [n] characters from [pos] on. *)
Definition substr (s : str) (pos n : Z) : outcome str :=
  if len s <? pos then Throw out_of_range
  else Ret (firstn (Z.to_nat n) (skipn (Z.to_nat pos) s)).

(** [s.substr(pos)]: the count defaults to [npos]. *)
Definition substr_from (s : str) (pos : Z) : outcome str :=
  if len s <? pos then Throw out_of_range
  else Ret (skipn (Z.to_nat pos) s).

(** [s.erase(pos, n)] throws when [pos > size()] and otherwise removes at
    most [n] characters from [pos] on. *)
Definition erase (s : str) (pos n : Z) : outcome str :=
  if len s <? pos then Throw out_of_range
  else Ret (firstn (Z.to_nat pos) s
            ++ skipn (Z.to_nat n) (skipn (Z.to_nat pos) s)).

(** [s.back()]: the last character; undefined on an empty string. *)
Definition back (s : str) : outcome ascii :=
  match rev s with
  | [] => Undefined
  | c :: _ => Ret c
  end.

(** [s.pop_back()]: undefined on an empty string. *)
Definition pop_back (s : str) : outcome str :=
  match s with
  | [] => Undefined
  | _ => Ret (removelast s)
  end.

End StdString.

Import StdString.

(** ** [findAll]

<<
    size_t pos = str.find(substr, 0);
    while(pos != std::string::npos)
    {
        positions.push_back(pos);
        pos = str.find(substr,pos+1);
    }
>>
    [pos + 1] is computed in [size_t]. *)

Fixpoint findAll_loop (fuel : nat) (s sub : str) (pos : Z) (positions : list Z)
  : outcome (list Z) :=
  match fuel with
  | O => OutOfFuel
  | S fuel' =>
      if pos =? npos then Ret positions
      else findAll_loop fuel' s sub (find s sub (to_size_t (pos + 1)))
                        (positions ++ [pos])
  end.

Definition findAll (s sub : str) : outcome (list Z) :=
  findAll_loop (length s + 2) s sub (find s sub 0) [].


(** ** [std::istringstream] and [std::getline] *)

Record istringstream : Type := mk_stream {
  buffer : str;      (* the characters not read yet *)
  eofbit : bool;
  failbit : bool
}.

Definition open_stream (s : str) : istringstream :=
  {| buffer := s; eofbit := false; failbit := false |}.

(** The characters before the first [delim], and what follows that [delim]
    when there is one. *)
Fixpoint extract_line (delim : ascii) (b : str) : str * option str :=
  match b with
  | [] => ([], None)
  | c :: b' =>
      if Ascii.eqb c delim then ([], Some b')
      else let (l, r) := extract_line delim b' in (c :: l, r)
  end.

(** [std::getline(input, line, delim)].  On a stream that is not [good()] it
    sets [failbit] and leaves [line] alone.  Otherwise it clears [line] and
    extracts up to and including [delim] (which is not stored); reaching the
    end sets [eofbit], and extracting nothing at all sets [failbit].  The
    third component is the stream converted to [bool]. *)
Definition getline (input : istringstream) (line : str) (delim : ascii)
  : istringstream * str * bool :=
  if eofbit input || failbit input then
    ({| buffer := buffer input; eofbit := eofbit input; failbit := true |},
     line, false)
  else
    match buffer input with
    | [] => ({| buffer := []; eofbit := true; failbit := true |}, [], false)
    | _ :: _ =>
        match extract_line delim (buffer input) with
        | (l, Some rest) =>
            ({| buffer := rest; eofbit := false; failbit := false |}, l, true)
        | (l, None) =>
            ({| buffer := []; eofbit := true; failbit := false |}, l, true)
        end
    end.

(** ** [contains]

    [int result = str.find(substring)] narrows the [size_t] to an [int];
    the comparisons with [str.length()] and [npos] widen it again.  The
    last branch also writes a notification to [std::cout]. *)

Definition contains (s substring : str) : bool :=
  let result := to_int (find s substring 0) in
  if (0 <=? result) && (to_size_t result <=? len s) then true
  else if to_size_t result =? npos then false
  else false.

(** ** [separate] *)

(** [for (std::string each; std::getline(split, each, separator[0]);
         separatedStrings.push_back(each));] *)
Fixpoint separate_getlines (fuel : nat) (split : istringstream) (each : str)
  (delim : ascii) (separatedStrings : list str) : outcome (list str) :=
  match fuel with
  | O => OutOfFuel
  | S fuel' =>
      let '(split', each', ok) := getline split each delim in
      if ok then
        separate_getlines fuel' split' each' delim (separatedStrings ++ [each'])
      else Ret separatedStrings
  end.

(** The branch for a separator of one character, with the trimming of the
    last element.  [separatedStrings.back().back()] is evaluated whenever the
    vector is not empty. *)
Definition separate_single (s : str) (sep0 : ascii) : outcome (list str) :=
  separatedStrings <- separate_getlines (length s + 1) (open_stream s) [] sep0 [] ;;
  match rev separatedStrings with
  | [] => Ret separatedStrings
  | lastString :: before =>
      c <- back lastString ;;
      if Ascii.eqb c sep0 then
        trimmed <- pop_back lastString ;;
        Ret (rev before ++ [trimmed])
      else Ret separatedStrings
  end.

(** [for(int i = 0; i < str.length(); i++)]: [i] is an [int], widened for
    the comparison and for [str[i]].  The loop returns the vector and the
    word that is left. *)
Fixpoint separate_loop (fuel : nat) (s separator : str) (i : Z) (word : str)
  (separatedStrings : list str) : outcome (list str * str) :=
  match fuel with
  | O => OutOfFuel
  | S fuel' =>
      if to_size_t i <? len s then
        match nth_error s (Z.to_nat (to_size_t i)) with
        | None => Undefined
        | Some c =>
            let word := word ++ [c] in
            if contains word separator then
              erased <- erase word (find word separator 0) (len separator) ;;
              separate_loop fuel' s separator (to_int (i + 1)) []
                            (separatedStrings ++ [erased])
            else
              separate_loop fuel' s separator (to_int (i + 1)) word
                            separatedStrings
        end
      else Ret (separatedStrings, word)
  end.

Definition separate_multi (s separator : str) : outcome (list str) :=
  r <- separate_loop (length s + 1) s separator 0 [] [] ;;
  let (separatedStrings, word) := r in
  Ret (separatedStrings ++ [word]).

(** [std::remove(begin, end, "")] followed by [erase]. *)
Definition remove_empty (v : list str) : list str :=
  filter (fun x => negb (str_eqb x [])) v.

Definition separate (s separator : str) (omitEmptyStrings : bool)
  : outcome (list str) :=
  separatedStrings <-
    (if len separator =? 1 then
       match separator with
       | sep0 :: _ => separate_single s sep0
       | [] => Undefined
       end
     else separate_multi s separator) ;;
  Ret (if omitEmptyStrings then remove_empty separatedStrings
       else separatedStrings).

(** ** [trim]

    [charsToTrim] is an [int]; it is widened for the comparison with
    [str.length()/2], and [charsToTrim * 2] is an [int] product. *)

Definition trim (s : str) (charsToTrim : Z) : outcome str :=
  if charsToTrim <? 0 then Ret s
  else if len s / 2 <=? to_size_t charsToTrim then Ret []
  else substr s (to_size_t charsToTrim)
              (to_size_t (len s - to_size_t (to_int (charsToTrim * 2)))).

(** ** [countLines] *)

Fixpoint countLines_loop (fuel : nat) (ss : istringstream) (line : str)
  (number_of_lines : Z) : outcome Z :=
  match fuel with
  | O => OutOfFuel
  | S fuel' =>
      let '(ss', line', ok) := getline ss line newline in
      if ok then countLines_loop fuel' ss' line' (to_int (number_of_lines + 1))
      else Ret number_of_lines
  end.

Definition countLines (s : str) : outcome Z :=
  countLines_loop (length s + 1) (open_stream s) [] 0.

(** ** [wrapToWidth] *)

(** The inner [while(true)] loop: it returns the output and what is left of
    [line].  [lineCutOffIndex] is an [int]. *)
Fixpoint wrap_line (fuel : nat) (wrapWidth : Z) (line output : str)
  : outcome (str * str) :=
  match fuel with
  | O => OutOfFuel
  | S fuel' =>
      if to_size_t wrapWidth <? len line then
        let lineCutOffIndex := to_int (rfind line [space] (to_size_t wrapWidth)) in
        if to_size_t lineCutOffIndex =? npos then
          head <- substr line 0 (to_size_t wrapWidth) ;;
          line' <- substr_from line (to_size_t (to_int (wrapWidth + 1))) ;;
          wrap_line fuel' wrapWidth line' (output ++ head ++ [newline])
        else
          head <- substr line 0 (to_size_t lineCutOffIndex) ;;
          line' <- substr_from line (to_size_t (to_int (lineCutOffIndex + 1))) ;;
          wrap_line fuel' wrapWidth line' (output ++ head ++ [newline])
      else Ret (output ++ line, line)
  end.

(** The outer [while(getline(in,line))] loop. *)
Fixpoint wrap_lines (fuel : nat) (input : istringstream) (line : str)
  (wrapWidth numberOfLines currLineNum : Z) (output : str) : outcome str :=
  match fuel with
  | O => OutOfFuel
  | S fuel' =>
      let '(input', line', ok) := getline input line newline in
      if ok then
        r <- wrap_line (length line' + 1) wrapWidth line' output ;;
        let (output', rest) := r in
        let currLineNum' := to_int (currLineNum + 1) in
        let output'' :=
          if (currLineNum' <? numberOfLines)
             || ((len rest =? 0) && (numberOfLines =? 1))
          then output' ++ [newline] else output' in
        wrap_lines fuel' input' rest wrapWidth numberOfLines currLineNum' output''
      else Ret output
  end.

Definition wrapToWidth (s : str) (wrapWidth : Z) : outcome str :=
  numberOfLines <- countLines s ;;
  wrap_lines (length s + 1) (open_stream s) [] wrapWidth numberOfLines 0 [].

(** ** [isFloat] *)

(** [isdigit] in the "C" locale. *)
Definition isdigit (c : ascii) : bool :=
  ((48 <=? nat_of_ascii c) && (nat_of_ascii c <=? 57))%nat.

(** The error codes that [std::from_chars] reports; [errc_none] is [std::errc{}]. *)
Inductive errc : Type :=
| errc_none
| errc_invalid_argument
| errc_result_out_of_range.

(** A decimal literal as [std::from_chars] reads it: a sign, the digits
    before the point and the digits after it. *)
Record decimal : Type := mk_decimal {
  negative : bool;
  integer_digits : str;
  fraction_digits : str
}.

(** The leading digits of [s], and what follows them. *)
Fixpoint span_digits (s : str) : str * str :=
  match s with
  | [] => ([], [])
  | c :: s' =>
      if isdigit c then let (d, r) := span_digits s' in (c :: d, r)
      else ([], s)
  end.

Definition strip_minus (s : str) : bool * str :=
  match s with
  | c :: s' => if Ascii.eqb c "-" then (true, s') else (false, s)
  | [] => (false, [])
  end.

Section NumericValidator.

(** Whether a decimal literal rounds to a value of the range of [double]:
    the one part of [std::from_chars] that is floating-point arithmetic. *)
Variable in_range : decimal -> bool.

(** The decimal point of the locale of [std::cout]. *)
Variable point : ascii.

(** [std::from_chars(first, last, value, std::chars_format::general)] on the
    whole string.  It reads an optional minus sign and digits around an
    optional ['.'], whatever the locale; with no digit at all nothing matches
    and the code is [invalid_argument].  The exponent part and the words
    [inf] and [nan] of the pattern start with a letter and are left out:
    [isFloat] has returned before the call when the text holds a letter
    other than [point]. *)
Definition from_chars_double (s : str) : errc :=
  let (neg, s1) := strip_minus s in
  let (intpart, s2) := span_digits s1 in
  let fracpart :=
    match s2 with
    | c :: s3 => if Ascii.eqb c "." then fst (span_digits s3) else []
    | [] => []
    end in
  match intpart ++ fracpart with
  | [] => errc_invalid_argument
  | _ :: _ =>
      if in_range {| negative := neg; integer_digits := intpart;
                     fraction_digits := fracpart |}
      then errc_none else errc_result_out_of_range
  end.

(** The scanning loop.  [None]: the loop has executed [return false];
    [Some seen]: it ran to the end with [seenDecimalPoint = seen]. *)
Fixpoint isFloat_loop (fuel : nat) (s : str) (charIndex : Z)
  (seenDecimalPoint : bool) : outcome (option bool) :=
  match fuel with
  | O => OutOfFuel
  | S fuel' =>
      if to_size_t charIndex <? len s then
        match nth_error s (Z.to_nat (to_size_t charIndex)) with
        | None => Undefined
        | Some c =>
            if (charIndex =? 0) && Ascii.eqb c "-" then
              isFloat_loop fuel' s (to_int (charIndex + 1)) seenDecimalPoint
            else if negb seenDecimalPoint && Ascii.eqb c point then
              isFloat_loop fuel' s (to_int (charIndex + 1)) true
            else if negb (isdigit c) then Ret None
            else isFloat_loop fuel' s (to_int (charIndex + 1)) seenDecimalPoint
        end
      else Ret (Some seenDecimalPoint)
  end.

Definition isFloat (s : str) : outcome bool :=
  r <- isFloat_loop (length s + 1) s 0 false ;;
  match r with
  | None => Ret false
  | Some seenDecimalPoint =>
      if negb seenDecimalPoint then Ret false
      else match from_chars_double s with
           | errc_invalid_argument => Ret false
           | errc_result_out_of_range => Ret false
           | errc_none => Ret true
           end
  end.

End NumericValidator.

(** A range test for the examples: the literal, rounded to the nearest
    binary64 number, is finite.  The value is [digits / 10^k] for [k]
    fraction digits, and it rounds to infinity from [2^1024 - 2^970] on. *)
Definition digit_value (c : ascii) : Z := Z.of_nat (nat_of_ascii c) - 48.

Definition digits_value (ds : str) : Z :=
  fold_left (fun acc c => 10 * acc + digit_value c) ds 0.

Definition binary64_finite (d : decimal) : bool :=
  digits_value (integer_digits d ++ fraction_digits d)
  <? (2 ^ 1024 - 2 ^ 970) * 10 ^ len (fraction_digits d).

(** * Notions of the specification *)

(** The offsets, counted from [off], at which [sub] occurs in [s]. *)
Fixpoint occurrences_from (sub s : str) (off : nat) : list nat :=
  match s with
  | [] => if is_prefix sub [] then [off] else []
  | _ :: s' =>
      (if is_prefix sub s then [off] else []) ++ occurrences_from sub s' (S off)
  end.

Definition occurrences (sub s : str) : list nat := occurrences_from sub s 0.

(** No occurrence of [sub] starts inside another one: where [sub] occurs,
    none of the next [length sub - 1] offsets is an occurrence. *)
Fixpoint no_overlap (sub s : str) : bool :=
  match s with
  | [] => true
  | _ :: s' =>
      (if is_prefix sub s then
         forallb (fun k => negb (is_prefix sub (skipn k s)))
                 (seq 1 (length sub - 1))
       else true)
      && no_overlap sub s'
  end.

(** The segments with the delimiter put back between consecutive ones. *)
Fixpoint join_with (delimiter : str) (segments : list str) : str :=
  match segments with
  | [] => []
  | [x] => x
  | x :: rest => x ++ delimiter ++ join_with delimiter rest
  end.

(** The number of newline characters of a text. *)
Definition count_newlines (s : str) : Z :=
  Z.of_nat (count_occ ascii_dec s newline).

(** The text ends with a line that has no newline after it. *)
Definition unterminated (s : str) : bool :=
  match rev s with
  | [] => false
  | c :: _ => negb (Ascii.eqb c newline)
  end.

(** The grammar ['-'? digit* point digit*] of the specification, with the
    literal it denotes. *)
Definition float_literal (point : ascii) (s : str) (d : decimal) : Prop :=
  exists sign,
    s = sign ++ integer_digits d ++ point :: fraction_digits d
    /\ ((sign = [] /\ negative d = false)
        \/ (sign = ["-"%char] /\ negative d = true))
    /\ forallb isdigit (integer_digits d) = true
    /\ forallb isdigit (fraction_digits d) = true.

(** The pieces of [s] between the occurrences of the character [d]; there
    is always at least one piece. *)
Fixpoint split_on (d : ascii) (s : str) : list str :=
  match s with
  | [] => [[]]
  | c :: s' =>
      if Ascii.eqb c d then [] :: split_on d s'
      else match split_on d s' with
           | piece :: pieces => (c :: piece) :: pieces
           | [] => [[c]]
           end
  end.

(** A list of pieces without its last piece when that one is empty. *)
Fixpoint drop_trailing_empty (v : list str) : list str :=
  match v with
  | [] => []
  | [[]] => []
  | x :: v' => x :: drop_trailing_empty v'
  end.

(** The number of lines of a text: its newlines, and one more for a last
    line that is not terminated. *)
Definition line_count (s : str) : Z :=
  count_newlines s + (if unterminated s then 1 else 0).

(** The last character of [s] is [d]. *)
Definition ends_with_char (d : ascii) (s : str) : bool :=
  match rev s with
  | [] => false
  | c :: _ => Ascii.eqb c d
  end.

(** The scanning loop of [isFloat] as a recursion over the characters
    that are left; [first] tells that the character at hand has index 0. *)
Fixpoint scan_chars (point : ascii) (first : bool) (rest : str)
  (seenDecimalPoint : bool) : option bool :=
  match rest with
  | [] => Some seenDecimalPoint
  | c :: rest' =>
      if first && Ascii.eqb c "-" then
        scan_chars point false rest' seenDecimalPoint
      else if negb seenDecimalPoint && Ascii.eqb c point then
        scan_chars point false rest' true
      else if negb (isdigit c) then None
      else scan_chars point false rest' seenDecimalPoint
  end.

Definition is_nil (s : str) : bool :=
  match s with
  | [] => true
  | _ :: _ => false
  end.

(** * The other functions of the header *)

(** ** [isInteger] and [isNumber] *)

(** [std::from_chars(first, last, value)] for an [int], on the whole string:
    an optional minus sign and decimal digits.  With no digit nothing
    matches; a value outside of [int] is [result_out_of_range]. *)
Definition from_chars_int (s : str) : errc :=
  let (neg, s1) := strip_minus s in
  let (digits, _) := span_digits s1 in
  match digits with
  | [] => errc_invalid_argument
  | _ :: _ =>
      let value := if neg then - digits_value digits else digits_value digits in
      if (int_min <=? value) && (value <=? int_max) then errc_none
      else errc_result_out_of_range
  end.

(** The scanning loop: [false] when it has executed [return false]. *)
Fixpoint isInteger_loop (fuel : nat) (s : str) (charIndex : Z) : outcome bool :=
  match fuel with
  | O => OutOfFuel
  | S fuel' =>
      if to_size_t charIndex <? len s then
        match nth_error s (Z.to_nat (to_size_t charIndex)) with
        | None => Undefined
        | Some c =>
            if (charIndex =? 0) && Ascii.eqb c "-" then
              isInteger_loop fuel' s (to_int (charIndex + 1))
            else if negb (isdigit c) then Ret false
            else isInteger_loop fuel' s (to_int (charIndex + 1))
        end
      else Ret true
  end.

Definition isInteger (s : str) : outcome bool :=
  scanned <- isInteger_loop (length s + 1) s 0 ;;
  if scanned then
    match from_chars_int s with
    | errc_invalid_argument => Ret false
    | errc_result_out_of_range => Ret false
    | errc_none => Ret true
    end
  else Ret false.

(** [isInteger(str) || isFloat(str)]: [isFloat] is called only when
    [isInteger] has returned [false]. *)
Definition isNumber (in_range : decimal -> bool) (point : ascii) (s : str)
  : outcome bool :=
  integer <- isInteger s ;;
  if integer then Ret true else isFloat in_range point s.

(** ** [toUpper], [string_to_bool] and [bool_to_string] *)

(** [std::toupper] in the "C" locale. *)
Definition toupper (c : ascii) : ascii :=
  let n := nat_of_ascii c in
  if ((97 <=? n) && (n <=? 122))%nat then ascii_of_nat (n - 32) else c.

(** [toUpper] changes its argument in place and returns a copy of it. *)
Definition toUpper (s : str) : str := map toupper s.

(** [std::isspace] in the "C" locale. *)
Definition isspace_C (c : ascii) : bool :=
  let n := nat_of_ascii c in
  ((n =? 32) || ((9 <=? n) && (n <=? 13)))%nat.

Fixpoint skip_spaces (s : str) : str :=
  match s with
  | [] => []
  | c :: s' => if isspace_C c then skip_spaces s' else s
  end.

Definition strip_sign (s : str) : bool * str :=
  match s with
  | c :: s' =>
      if Ascii.eqb c "-" then (true, s')
      else if Ascii.eqb c "+" then (false, s')
      else (false, s)
  | [] => (false, [])
  end.

(** [std::stoi(str)]: [strtol] in base 10 skips white space, reads a sign
    and digits; [std::invalid_argument] is thrown when there is no digit,
    [std::out_of_range] when the value is not an [int]. *)
Definition stoi (s : str) : outcome Z :=
  let (neg, s1) := strip_sign (skip_spaces s) in
  let (digits, _) := span_digits s1 in
  match digits with
  | [] => Throw invalid_argument
  | _ :: _ =>
      let value := if neg then - digits_value digits else digits_value digits in
      if (int_min <=? value) && (value <=? int_max) then Ret value
      else Throw out_of_range
  end.

(** [string_to_bool] takes its argument by reference and [toUpper] changes
    it: the first component is the argument after the call. *)
Definition string_to_bool (in_range : decimal -> bool) (point : ascii) (s : str)
  : str * outcome bool :=
  let s' := toUpper s in
  (s',
   if str_eqb s' (lit "TRUE") then Ret true
   else
     number <- isNumber in_range point s' ;;
     if number then
       value <- stoi s' ;;
       Ret (negb (value =? 0))
     else Ret false).

Definition bool_to_string (input : bool) : str :=
  if input then lit "true" else lit "false".

(** ** [removeWhitespace], [getWhitespaceString] and [trimWhitespace] *)

(** A [char] is a signed byte; [char_of] gives the byte of its value. *)
Definition char_min : Z := -128.
Definition char_max : Z := 127.

Definition char_of (z : Z) : ascii := ascii_of_N (Z.to_N (z mod 256)).

(** [s.find_first_not_of(set)] and [s.find_last_not_of(set)]. *)
Definition mem_char (c : ascii) (set : str) : bool :=
  existsb (Ascii.eqb c) set.

Fixpoint first_not_of (set s : str) : option nat :=
  match s with
  | [] => None
  | c :: s' =>
      if mem_char c set then option_map S (first_not_of set s') else Some 0%nat
  end.

Fixpoint last_not_of (set s : str) : option nat :=
  match s with
  | [] => None
  | c :: s' =>
      match last_not_of set s' with
      | Some k => Some (S k)
      | None => if mem_char c set then None else Some 0%nat
      end
  end.

Definition find_first_not_of (s set : str) : Z :=
  match first_not_of set s with
  | Some k => Z.of_nat k
  | None => npos
  end.

Definition find_last_not_of (s set : str) : Z :=
  match last_not_of set s with
  | Some k => Z.of_nat k
  | None => npos
  end.

Section Whitespace.

(** The classification of the locale at hand: [std::isspace(x)] of the
    C locale for [removeWhitespace], [std::isspace(ch, loc)] for the
    other two. *)
Variable isspace : ascii -> bool.

(** [str.erase(std::remove_if(begin, end, isspace), end)]. *)
Definition removeWhitespace (s : str) : str :=
  filter (fun x => negb (isspace x)) s.

(** [for (char ch = min; ch < max; ch++) if (isspace(ch, loc)) whitespace += ch;] *)
Fixpoint getWhitespaceString_loop (fuel : nat) (ch : Z) (whitespace : str)
  : outcome str :=
  match fuel with
  | O => OutOfFuel
  | S fuel' =>
      if ch <? char_max then
        getWhitespaceString_loop fuel' (ch + 1)
          (if isspace (char_of ch) then whitespace ++ [char_of ch]
           else whitespace)
      else Ret whitespace
  end.

Definition getWhitespaceString : outcome str :=
  whitespace <- getWhitespaceString_loop 256 char_min [] ;;
  Ret (if isspace (char_of char_max) then whitespace ++ [char_of char_max]
       else whitespace).

(** [strEnd - strBegin + 1] is computed in [size_t]. *)
Definition trimWhitespace (s : str) : outcome str :=
  whitespace <- getWhitespaceString ;;
  let strBegin := find_first_not_of s whitespace in
  if strBegin =? npos then Ret []
  else
    let strEnd := find_last_not_of s whitespace in
    let strRange := to_size_t (to_size_t (strEnd - strBegin) + 1) in
    substr s strBegin strRange.

End Whitespace.

(** ** [circularIndex] and [eraseCharsFromEnd] *)

(** [str[circ_i % str.length()]]: [circ_i] is widened to [size_t]; the
    remainder by zero is undefined. *)
Definition circularIndex (s : str) (circ_i : Z) : outcome ascii :=
  if len s =? 0 then Undefined
  else match nth_error s (Z.to_nat (to_size_t circ_i mod len s)) with
       | Some c => Ret c
       | None => Undefined
       end.

(** [str.erase(str.size() - n)]: the difference is computed in [size_t],
    and [erase] throws when it is larger than the size. *)
Definition eraseCharsFromEnd (s : str) (n : Z) : outcome str :=
  match s with
  | [] => Ret []
  | _ :: _ =>
      let pos := to_size_t (len s - to_size_t n) in
      if len s <? pos then Throw out_of_range
      else Ret (firstn (Z.to_nat pos) s)
  end.

(** ** [reverse] and [isPalindrome] *)

Definition reverse (s : str) : str := rev s.

(** [std::equal(first1, last1, first2)]: the range [a] against the
    elements that start at [first2]; [b] holds at least as many here. *)
Fixpoint std_equal (a b : str) : bool :=
  match a, b with
  | [], _ => true
  | x :: a', y :: b' => Ascii.eqb x y && std_equal a' b'
  | _ :: _, [] => false
  end.

(** [std::equal(str.begin(), str.begin() + str.size()/2, str.rbegin())]. *)
Definition isPalindrome (s : str) : bool :=
  std_equal (firstn (Z.to_nat (len s / 2)) s) (rev s).

(** ** [isNotDigit] and [eraseNonNumericChars] *)

(** [!(isdigit(c))]. *)
Definition isNotDigit (c : ascii) : bool := negb (isdigit c).

(** [str.erase(std::remove_if(begin, end, isNotDigit), end)]. *)
Definition eraseNonNumericChars (s : str) : str :=
  filter (fun c => negb (isNotDigit c)) s.

(** ** [mapifyString] *)

(** [std::string::operator<]: the characters are compared as unsigned
    bytes. *)
Fixpoint str_ltb (a b : str) : bool :=
  match a, b with
  | _, [] => false
  | [], _ :: _ => true
  | x :: a', y :: b' =>
      if (nat_of_ascii x <? nat_of_ascii y)%nat then true
      else if (nat_of_ascii y <? nat_of_ascii x)%nat then false
      else str_ltb a' b'
  end.

(** A [std::map<std::string,std::string>] is the list of its entries in
    the order of the keys; [m[key] = value] replaces the value of the key or
    puts a new entry at its place. *)
Fixpoint map_assign (key value : str) (m : list (str * str))
  : list (str * str) :=
  match m with
  | [] => [(key, value)]
  | (k, v) :: m' =>
      if str_eqb k key then (key, value) :: m'
      else if str_ltb key k then (key, value) :: (k, v) :: m'
      else (k, v) :: map_assign key value m'
  end.

(** [for(int i = 0; i < keysAndValues.size(); i++)]. *)
Fixpoint mapifyString_loop (fuel : nat) (keysAndValues : list str)
  (keyValueSeparator : str) (i : Z) (mappedString : list (str * str))
  : outcome (list (str * str)) :=
  match fuel with
  | O => OutOfFuel
  | S fuel' =>
      if to_size_t i <? Z.of_nat (length keysAndValues) then
        match nth_error keysAndValues (Z.to_nat (to_size_t i)) with
        | None => Undefined
        | Some entry =>
            keyAndValue <- separate entry keyValueSeparator true ;;
            match keyAndValue with
            | [] =>
                mapifyString_loop fuel' keysAndValues keyValueSeparator
                                  (to_int (i + 1)) mappedString
            | [key] =>
                mapifyString_loop fuel' keysAndValues keyValueSeparator
                                  (to_int (i + 1))
                                  (map_assign key [] mappedString)
            | key :: value :: _ =>
                mapifyString_loop fuel' keysAndValues keyValueSeparator
                                  (to_int (i + 1))
                                  (map_assign key value mappedString)
            end
        end
      else Ret mappedString
  end.

(** [isspace] is the classification that [removeWhitespace] uses. *)
Definition mapifyString (isspace : ascii -> bool) (s keyValueSeparator
  pairSeparator : str) (ignoreWhitespace : bool)
  : outcome (list (str * str)) :=
  let s := if ignoreWhitespace then removeWhitespace isspace s else s in
  keysAndValues <- separate s pairSeparator true ;;
  mapifyString_loop (length keysAndValues + 1) keysAndValues
                    keyValueSeparator 0 [].

(** A key and its value written with the separator between them. *)
Definition write_pair (keyValueSeparator : str) (entry : str * str) : str :=
  fst entry ++ keyValueSeparator ++ snd entry.

(** The value of a sign and digits. *)
Definition signed_value (neg : bool) (ds : str) : Z :=
  if neg then - digits_value ds else digits_value ds.

(** The bytes of the [n] values of [char] from [ch] on. *)
Definition chars_from (ch : Z) (n : nat) : str :=
  map (fun i => char_of (ch + Z.of_nat i)) (seq 0 n).

(** * Properties *)

(** ** Integer conversions *)

Lemma to_size_t_small z : 0 <= z <= size_max -> to_size_t z = z.
Proof.
  unfold to_size_t, size_max. intros H. apply Z.mod_small. lia.
Qed.

Lemma to_int_small z : int_min <= z <= int_max -> to_int z = z.
Proof.
  unfold to_int, int_min, int_max. intros H.
  rewrite Z.mod_small by lia. lia.
Qed.

Lemma len_nonneg (s : str) : 0 <= len s.
Proof. unfold len. lia. Qed.

Lemma len_app (a b : str) : len (a ++ b) = len a + len b.
Proof. unfold len. rewrite length_app. lia. Qed.

Lemma len_cons c (s : str) : len (c :: s) = len s + 1.
Proof. unfold len. simpl length. lia. Qed.

Lemma int_max_lt_npos : int_max < npos.
Proof. reflexivity. Qed.

(** ** Searching *)

Lemma skipn_length_app {A} (pre rest : list A) :
  skipn (length pre) (pre ++ rest) = rest.
Proof.
  induction pre as [|a pre IH]; simpl; auto.
Qed.

Lemma nth_error_length_app {A} (pre rest : list A) c :
  nth_error (pre ++ c :: rest) (length pre) = Some c.
Proof.
  induction pre as [|a pre IH]; simpl; auto.
Qed.

Lemma find_at_split (pre rest sub : str) :
  find (pre ++ rest) sub (len pre) =
  match search sub rest with
  | Some k => len pre + Z.of_nat k
  | None => npos
  end.
Proof.
  unfold find. rewrite len_app.
  pose proof (len_nonneg rest) as Hr.
  destruct (len pre + len rest <? len pre) eqn:E; [apply Z.ltb_lt in E; lia|].
  unfold len at 1. rewrite Nat2Z.id, skipn_length_app. reflexivity.
Qed.

Lemma find_past_end (s sub : str) pos : len s < pos -> find s sub pos = npos.
Proof.
  intros H. unfold find.
  destruct (len s <? pos) eqn:E; [reflexivity|apply Z.ltb_ge in E; lia].
Qed.

Lemma app_cons_assoc {A} (pre rest : list A) c :
  pre ++ c :: rest = (pre ++ [c]) ++ rest.
Proof. rewrite <- app_assoc. reflexivity. Qed.

Lemma len_snoc (pre : str) c : len (pre ++ [c]) = len pre + 1.
Proof. rewrite len_app. reflexivity. Qed.

Lemma find_skip_mismatch (pre rest sub : str) c :
  is_prefix sub (c :: rest) = false ->
  find (pre ++ c :: rest) sub (len pre)
  = find (pre ++ c :: rest) sub (len pre + 1).
Proof.
  intros Hp. rewrite (find_at_split pre (c :: rest)).
  rewrite (app_cons_assoc pre rest c), <- (len_snoc pre c).
  rewrite (find_at_split (pre ++ [c]) rest).
  simpl search. rewrite Hp.
  destruct (search sub rest) as [k|]; simpl; [|reflexivity].
  rewrite len_snoc. lia.
Qed.

(** ** [findAll] returns the occurrences *)

Lemma findAll_loop_occurrences (sub rest : str) :
  forall (pre : str) (fuel : nat) (acc : list Z),
    len (pre ++ rest) < npos ->
    (length rest + 2 <= fuel)%nat ->
    findAll_loop fuel (pre ++ rest) sub (find (pre ++ rest) sub (len pre)) acc
    = Ret (acc ++ map Z.of_nat (occurrences_from sub rest (length pre))).
Proof.
  induction rest as [|c rest IH]; intros pre fuel acc Hlen Hfuel.
  - rewrite find_at_split. simpl search. simpl occurrences_from.
    destruct fuel as [|[|fuel]]; simpl in Hfuel; try lia.
    pose proof (len_nonneg pre) as Hp. rewrite app_nil_r in *.
    destruct (is_prefix sub []).
    + simpl findAll_loop. rewrite Z.add_0_r.
      destruct (len pre =? npos) eqn:E; [apply Z.eqb_eq in E; lia|].
      rewrite to_size_t_small by (unfold npos in Hlen; lia).
      rewrite find_past_end by lia. rewrite Z.eqb_refl. reflexivity.
    + simpl. rewrite app_nil_r. reflexivity.
  - simpl occurrences_from.
    destruct (is_prefix sub (c :: rest)) eqn:Hp.
    + rewrite find_at_split. simpl search. rewrite Hp, Z.add_0_r.
      destruct fuel as [|fuel]; [lia|]. simpl in Hfuel.
      simpl findAll_loop. rewrite len_app, len_cons in Hlen.
      pose proof (len_nonneg pre). pose proof (len_nonneg rest).
      destruct (len pre =? npos) eqn:E; [apply Z.eqb_eq in E; lia|].
      rewrite to_size_t_small by (unfold npos in Hlen; lia).
      rewrite (app_cons_assoc pre rest c), <- (len_snoc pre c).
      rewrite IH.
      * rewrite <- app_assoc. simpl. rewrite length_app. simpl.
        rewrite Nat.add_1_r. reflexivity.
      * rewrite len_app, len_snoc. lia.
      * lia.
    + rewrite find_skip_mismatch by exact Hp.
      rewrite (app_cons_assoc pre rest c), <- (len_snoc pre c).
      rewrite IH.
      * simpl. rewrite length_app. simpl. rewrite Nat.add_1_r. reflexivity.
      * rewrite <- app_cons_assoc. exact Hlen.
      * simpl in Hfuel. lia.
Qed.

Lemma findAll_occurrences (s sub : str) :
  len s < npos -> findAll s sub = Ret (map Z.of_nat (occurrences sub s)).
Proof.
  intros H. unfold findAll, occurrences.
  apply (findAll_loop_occurrences sub s [] (length s + 2) []); [exact H|lia].
Qed.

Lemma occurrences_from_empty (s : str) :
  forall off, occurrences_from [] s off = seq off (length s + 1).
Proof.
  induction s as [|c s IH]; intros off; simpl; [reflexivity|].
  rewrite IH. reflexivity.
Qed.

(** C1, as the code has it: for an empty target [findAll] returns the
    offsets [0, 1, ..., T.length()], one more than the text has characters;
    for the empty text that is the single offset [0].  The scan starts at
    offset 0 and advances by one position per match, up to and including the
    final position. *)
Theorem findAll_empty_target (T : str) :
  len T < npos ->
  findAll T [] = Ret (map Z.of_nat (seq 0 (length T + 1))).
Proof.
  intros H. rewrite findAll_occurrences by exact H.
  unfold occurrences. rewrite occurrences_from_empty. reflexivity.
Qed.

Lemma findAll_empty_target_witness :
  len (lit "abc") < npos
  /\ findAll (lit "abc") [] = Ret [0; 1; 2; 3].
Proof.
  split; [reflexivity|].
  apply (findAll_empty_target (lit "abc")). reflexivity.
Defined.

(** C1 as stated fails: the empty text has one match, not none, and a text
    of two characters has three matches, not two. *)
Lemma findAll_empty_target_counterexample :
  findAll (lit "") (lit "") = Ret [0]
  /\ findAll (lit "ab") (lit "") = Ret [0; 1; 2].
Proof. split; reflexivity. Qed.

(** ** [trim] *)

(** What [trim] returns for a count that is not negative, on a text whose
    length fits an [int]. *)
Lemma trim_nonneg (T : str) (n : Z) :
  0 <= n <= int_max -> len T <= int_max ->
  trim T n =
  Ret (if len T / 2 <=? n then []
       else firstn (Z.to_nat (len T - 2 * n)) (skipn (Z.to_nat n) T)).
Proof.
  intros Hn HT. unfold trim.
  destruct (n <? 0) eqn:E; [apply Z.ltb_lt in E; lia|].
  unfold int_max in *.
  rewrite (to_size_t_small n) by (unfold size_max; lia).
  destruct (Z.leb_spec (len T / 2) n) as [Hhalf|Hhalf]; [reflexivity|].
  assert (2 * n < len T).
  { pose proof (Z.mul_div_le (len T) 2). lia. }
  rewrite (to_int_small (n * 2)) by (unfold int_min, int_max; lia).
  rewrite (to_size_t_small (n * 2)) by (unfold size_max; lia).
  rewrite (to_size_t_small (len T - n * 2)) by (unfold size_max; lia).
  unfold substr.
  destruct (Z.ltb_spec (len T) n); [lia|].
  replace (len T - n * 2) with (len T - 2 * n) by lia. reflexivity.
Qed.

(** With count 0 the text comes back, unless it is a single character. *)
Lemma trim_zero (T : str) :
  len T <= int_max -> trim T 0 = Ret (if len T <=? 1 then [] else T).
Proof.
  intros HT. rewrite trim_nonneg by (unfold int_max in *; lia).
  pose proof (len_nonneg T) as Hn. f_equal.
  destruct (Z.leb_spec (len T) 1) as [H1|H1].
  - replace (len T / 2) with 0; [reflexivity|].
    symmetry. apply Z.div_small. lia.
  - assert (1 <= len T / 2) by (apply Z.div_le_lower_bound; lia).
    destruct (Z.leb_spec (len T / 2) 0); [lia|].
    rewrite Z.mul_0_r, Z.sub_0_r. unfold len. rewrite Nat2Z.id.
    simpl skipn. apply firstn_all.
Qed.

(** C4: [trim] compares the count with [str.length()/2], an integer
    division, so a text of odd length loses its middle character: with
    count 0 a text of one character becomes empty, and [trim("abc", 1)] is
    empty where [2*1 < 3]. *)
Theorem trim_odd_length_emptied :
  trim (lit "a") 0 = Ret []
  /\ trim (lit "abc") 1 = Ret []
  /\ trim (lit "abcd") 1 = Ret (lit "bc").
Proof. repeat split. Qed.

(** C5, as the code has it: a negative count is not an error; [trim]
    returns the text unchanged. *)
Theorem trim_negative_passes_through (T : str) (n : Z) :
  n < 0 -> trim T n = Ret T.
Proof.
  intros H. unfold trim.
  destruct (n <? 0) eqn:E; [reflexivity|apply Z.ltb_ge in E; lia].
Qed.

Lemma trim_negative_passes_through_witness :
  -1 < 0 /\ trim (lit "abc") (-1) = Ret (lit "abc").
Proof.
  split; [lia|]. apply (trim_negative_passes_through (lit "abc") (-1)). lia.
Defined.

(** C5 as stated fails: no [invalid_argument] is raised for count [-1]. *)
Lemma trim_negative_counterexample :
  trim (lit "abc") (-1) = Ret (lit "abc")
  /\ trim (lit "abc") (-1) <> Throw invalid_argument.
Proof. split; [reflexivity|discriminate]. Qed.

(** ** [wrapToWidth] *)

(** C6: the hard break continues after [wrapWidth + 1] characters, so the
    character that follows each cut is lost: the results are
    ["111\n223\n3"] and ["11111\n\n"]. *)
Theorem wrapToWidth_hard_break_drops_character :
  wrapToWidth (lit "111222333") 3
  = Ret (lit "111" ++ [newline] ++ lit "223" ++ [newline] ++ lit "3")
  /\ wrapToWidth (lit "111112") 5
     = Ret (lit "11111" ++ [newline; newline]).
Proof. split; reflexivity. Qed.

(** C7: there is no branch for a width that is not positive.  Width 0 turns
    each character into a newline and adds one more; a negative width,
    widened to [size_t], is larger than any line, and the text passes
    through. *)
Theorem wrapToWidth_nonpositive_width :
  wrapToWidth (lit "111222333") 0 = Ret (repeat newline 10)
  /\ wrapToWidth (lit "111222333") (-1) = Ret (lit "111222333").
Proof. split; reflexivity. Qed.

(** ** Reading lines from a stream *)

Lemma str_cases (d : ascii) (b : str) :
  b = []
  \/ (exists l rest, b = l ++ d :: rest /\ ~ In d l)
  \/ (b <> [] /\ ~ In d b).
Proof.
  induction b as [|c b IH]; [left; reflexivity|right].
  destruct (ascii_dec c d) as [->|Hcd].
  - left. exists [], b. split; [reflexivity|intros []].
  - destruct IH as [->|[(l & rest & -> & Hl)|[Hb Hn]]].
    + right. split; [discriminate|]. intros [H|[]]. congruence.
    + left. exists (c :: l), rest. split; [reflexivity|].
      intros [H|H]; [congruence|tauto].
    + right. split; [discriminate|]. intros [H|H]; [congruence|tauto].
Qed.

Lemma extract_line_delim (d : ascii) (l rest : str) :
  ~ In d l -> extract_line d (l ++ d :: rest) = (l, Some rest).
Proof.
  induction l as [|c l IH]; intros Hl; simpl.
  - rewrite Ascii.eqb_refl. reflexivity.
  - destruct (Ascii.eqb_spec c d) as [->|Hcd]; [exfalso; apply Hl; left; reflexivity|].
    rewrite IH; [reflexivity|]. intros H. apply Hl. right. exact H.
Qed.

Lemma extract_line_end (d : ascii) (l : str) :
  ~ In d l -> extract_line d l = (l, None).
Proof.
  induction l as [|c l IH]; intros Hl; simpl; [reflexivity|].
  destruct (Ascii.eqb_spec c d) as [->|Hcd]; [exfalso; apply Hl; left; reflexivity|].
  rewrite IH; [reflexivity|]. intros H. apply Hl. right. exact H.
Qed.

Lemma getline_empty (line : str) (d : ascii) :
  getline (open_stream []) line d = (mk_stream [] true true, [], false).
Proof. reflexivity. Qed.

Lemma getline_delim (d : ascii) (l rest line : str) :
  ~ In d l ->
  getline (open_stream (l ++ d :: rest)) line d = (open_stream rest, l, true).
Proof.
  intros Hl. unfold getline, open_stream. simpl eofbit. simpl failbit.
  simpl buffer. simpl orb. cbv iota.
  rewrite (extract_line_delim d l rest Hl).
  destruct (l ++ d :: rest) eqn:E; [destruct l; discriminate|reflexivity].
Qed.

Lemma getline_end (d : ascii) (l line : str) :
  l <> [] -> ~ In d l ->
  getline (open_stream l) line d = (mk_stream [] true false, l, true).
Proof.
  intros Hne Hl. unfold getline, open_stream. simpl eofbit. simpl failbit.
  simpl buffer. simpl orb. cbv iota.
  rewrite (extract_line_end d l Hl).
  destruct l; [congruence|reflexivity].
Qed.

Lemma getline_after_eof (b line : str) (d : ascii) (f : bool) :
  getline (mk_stream b true f) line d = (mk_stream b true true, line, false).
Proof. reflexivity. Qed.

(** ** [countLines] *)

Lemma count_newlines_app (a b : str) :
  count_newlines (a ++ b) = count_newlines a + count_newlines b.
Proof. unfold count_newlines. rewrite count_occ_app. lia. Qed.

Lemma count_newlines_absent (l : str) :
  ~ In newline l -> count_newlines l = 0.
Proof.
  intros H. unfold count_newlines.
  rewrite (proj1 (count_occ_not_In ascii_dec l newline) H). reflexivity.
Qed.

Lemma unterminated_after_newline (l rest : str) :
  unterminated (l ++ newline :: rest) = unterminated rest.
Proof.
  unfold unterminated. rewrite rev_app_distr. simpl rev.
  destruct (rev rest) as [|c r] eqn:E; simpl; reflexivity.
Qed.

Lemma unterminated_no_newline (l : str) :
  l <> [] -> ~ In newline l -> unterminated l = true.
Proof.
  intros Hne Hl. unfold unterminated.
  destruct (rev l) as [|c r] eqn:E.
  - apply (f_equal (@rev ascii)) in E. rewrite rev_involutive in E.
    simpl in E. congruence.
  - destruct (Ascii.eqb_spec c newline) as [->|]; [|reflexivity].
    exfalso. apply Hl. apply in_rev. rewrite E. left. reflexivity.
Qed.

Lemma line_count_after_newline (l rest : str) :
  ~ In newline l -> line_count (l ++ newline :: rest) = 1 + line_count rest.
Proof.
  intros Hl. unfold line_count.
  rewrite unterminated_after_newline, count_newlines_app.
  rewrite (count_newlines_absent l Hl).
  change (newline :: rest) with ([newline] ++ rest).
  rewrite count_newlines_app. unfold count_newlines at 1. simpl count_occ.
  destruct (ascii_dec newline newline); [|congruence]. simpl Z.of_nat. lia.
Qed.

Lemma line_count_no_newline (l : str) :
  l <> [] -> ~ In newline l -> line_count l = 1.
Proof.
  intros Hne Hl. unfold line_count.
  rewrite (count_newlines_absent l Hl), (unterminated_no_newline l Hne Hl).
  reflexivity.
Qed.

Lemma countLines_loop_step fuel ss line k :
  countLines_loop (S fuel) ss line k =
  let '(ss', line', ok) := getline ss line newline in
  if ok then countLines_loop fuel ss' line' (to_int (k + 1)) else Ret k.
Proof. reflexivity. Qed.

Lemma countLines_loop_counts (fuel : nat) :
  forall (b line : str) (k : Z),
    (length b + 1 <= fuel)%nat ->
    0 <= k -> k + len b <= int_max ->
    countLines_loop fuel (open_stream b) line k = Ret (k + line_count b).
Proof.
  induction fuel as [|fuel IH]; intros b line k Hfuel Hk Hmax; [lia|].
  destruct (str_cases newline b) as [->|[(l & rest & -> & Hl)|[Hne Hl]]].
  - simpl. f_equal. unfold line_count, count_newlines. simpl. lia.
  - rewrite countLines_loop_step, (getline_delim newline l rest line Hl).
    rewrite len_app, len_cons in Hmax.
    pose proof (len_nonneg l). pose proof (len_nonneg rest).
    rewrite to_int_small by (unfold int_min, int_max in *; lia).
    rewrite IH.
    + rewrite (line_count_after_newline l rest Hl). f_equal. lia.
    + rewrite length_app in Hfuel. simpl in Hfuel. lia.
    + lia.
    + lia.
  - rewrite countLines_loop_step, (getline_end newline b line Hne Hl).
    assert (0 < len b) by (unfold len; destruct b; [congruence|simpl; lia]).
    rewrite to_int_small by (unfold int_min, int_max in *; lia).
    destruct fuel as [|fuel]; [destruct b; [congruence|simpl in Hfuel; lia]|].
    rewrite countLines_loop_step, getline_after_eof.
    rewrite (line_count_no_newline b Hne Hl). reflexivity.
Qed.

(** C9, as the code has it: [countLines] counts the lines that [getline]
    reads, which are the newline characters of the text and one more when
    the text ends with a line that has no newline after it. *)
Theorem countLines_counts_lines (T : str) :
  len T <= int_max ->
  countLines T = Ret (count_newlines T + (if unterminated T then 1 else 0)).
Proof.
  intros H. unfold countLines.
  rewrite (countLines_loop_counts (length T + 1) T [] 0); [reflexivity|lia|lia|lia].
Qed.

Lemma countLines_counts_lines_witness :
  len (lit "ab") <= int_max
  /\ countLines (lit "ab")
     = Ret (count_newlines (lit "ab") + (if unterminated (lit "ab") then 1 else 0)).
Proof.
  split; [discriminate|]. apply (countLines_counts_lines (lit "ab")). discriminate.
Defined.

(** C9 as stated fails: ["a"] holds no newline and counts one line. *)
Lemma countLines_counterexample :
  countLines (lit "a") = Ret 1 /\ count_newlines (lit "a") = 0.
Proof. split; reflexivity. Qed.

(** ** [separate], separator of one character *)

Lemma split_on_nonempty (d : ascii) (s : str) : split_on d s <> [].
Proof.
  destruct s as [|c s]; simpl; [discriminate|].
  destruct (Ascii.eqb c d); [discriminate|].
  destruct (split_on d s); discriminate.
Qed.

Lemma split_on_delim (d : ascii) (l rest : str) :
  ~ In d l -> split_on d (l ++ d :: rest) = l :: split_on d rest.
Proof.
  induction l as [|c l IH]; intros Hl; simpl.
  - rewrite Ascii.eqb_refl. reflexivity.
  - destruct (Ascii.eqb_spec c d) as [->|Hcd]; [exfalso; apply Hl; left; reflexivity|].
    rewrite IH; [reflexivity|]. intros H. apply Hl. right. exact H.
Qed.

Lemma split_on_end (d : ascii) (l : str) :
  ~ In d l -> split_on d l = [l].
Proof.
  induction l as [|c l IH]; intros Hl; simpl; [reflexivity|].
  destruct (Ascii.eqb_spec c d) as [->|Hcd]; [exfalso; apply Hl; left; reflexivity|].
  rewrite IH; [reflexivity|]. intros H. apply Hl. right. exact H.
Qed.

Lemma split_on_snoc_delim (d : ascii) (s : str) :
  split_on d (s ++ [d]) = split_on d s ++ [[]].
Proof.
  induction s as [|c s IH]; simpl.
  - rewrite Ascii.eqb_refl. reflexivity.
  - rewrite IH. destruct (Ascii.eqb c d); [reflexivity|].
    pose proof (split_on_nonempty d s) as Hne.
    destruct (split_on d s); [congruence|reflexivity].
Qed.

Lemma split_on_snoc_other (d x : ascii) (s : str) :
  x <> d ->
  split_on d (s ++ [x])
  = removelast (split_on d s) ++ [last (split_on d s) [] ++ [x]].
Proof.
  intros Hx. induction s as [|c s IH]; simpl.
  - destruct (Ascii.eqb_spec x d); [congruence|reflexivity].
  - rewrite IH. pose proof (split_on_nonempty d s) as Hne.
    destruct (Ascii.eqb c d).
    + destruct (split_on d s) as [|p ps] eqn:E; [congruence|reflexivity].
    + destruct (split_on d s) as [|p [|q ps]] eqn:E; [congruence| |]; reflexivity.
Qed.

Lemma split_on_length (d : ascii) (s : str) :
  length (split_on d s) = (count_occ ascii_dec s d + 1)%nat.
Proof.
  induction s as [|c s IH]; simpl; [reflexivity|].
  destruct (Ascii.eqb_spec c d) as [->|Hcd].
  - destruct (ascii_dec d d); [|congruence]. simpl. rewrite IH. reflexivity.
  - destruct (ascii_dec c d); [congruence|].
    pose proof (split_on_nonempty d s) as Hne.
    destruct (split_on d s); [congruence|]. simpl in *. exact IH.
Qed.

Lemma drop_trailing_empty_cons (x : str) (v : list str) :
  v <> [] -> drop_trailing_empty (x :: v) = x :: drop_trailing_empty v.
Proof.
  intros Hv. destruct v as [|y v]; [congruence|].
  destruct x; reflexivity.
Qed.

Lemma drop_trailing_empty_snoc_empty (v : list str) :
  drop_trailing_empty (v ++ [[]]) = v.
Proof.
  induction v as [|x v IH]; [reflexivity|].
  simpl app. rewrite drop_trailing_empty_cons by (destruct v; discriminate).
  rewrite IH. reflexivity.
Qed.

Lemma drop_trailing_empty_snoc_full (v : list str) (p : str) :
  p <> [] -> drop_trailing_empty (v ++ [p]) = v ++ [p].
Proof.
  intros Hp. induction v as [|x v IH].
  - destruct p; [congruence|reflexivity].
  - simpl app. rewrite drop_trailing_empty_cons by (destruct v; discriminate).
    rewrite IH. reflexivity.
Qed.

Lemma separate_getlines_step fuel split each delim v :
  separate_getlines (S fuel) split each delim v =
  let '(split', each', ok) := getline split each delim in
  if ok then separate_getlines fuel split' each' delim (v ++ [each'])
  else Ret v.
Proof. reflexivity. Qed.

(** The first loop of the branch collects the pieces between the
    separators, without a last piece that is empty. *)
Lemma separate_getlines_pieces (d : ascii) (fuel : nat) :
  forall (b each : str) (v : list str),
    (length b + 1 <= fuel)%nat ->
    separate_getlines fuel (open_stream b) each d v
    = Ret (v ++ drop_trailing_empty (split_on d b)).
Proof.
  induction fuel as [|fuel IH]; intros b each v Hfuel; [lia|].
  destruct (str_cases d b) as [->|[(l & rest & -> & Hl)|[Hne Hl]]].
  - simpl. rewrite app_nil_r. reflexivity.
  - rewrite separate_getlines_step, (getline_delim d l rest each Hl).
    rewrite IH by (rewrite length_app in Hfuel; simpl in Hfuel; lia).
    rewrite (split_on_delim d l rest Hl).
    rewrite drop_trailing_empty_cons by apply split_on_nonempty.
    rewrite <- app_assoc. reflexivity.
  - rewrite separate_getlines_step, (getline_end d b each Hne Hl).
    destruct fuel as [|fuel]; [destruct b; [congruence|simpl in Hfuel; lia]|].
    rewrite separate_getlines_step, getline_after_eof.
    rewrite (split_on_end d b Hl).
    destruct b; [congruence|reflexivity].
Qed.

Lemma back_snoc (p : str) (x : ascii) : back (p ++ [x]) = Ret x.
Proof. unfold back. rewrite rev_app_distr. reflexivity. Qed.

(** When the pieces end with an empty one, [back()] is called on it. *)
Lemma separate_single_last_empty (T : str) (d : ascii) (v : list str) :
  drop_trailing_empty (split_on d T) = v ++ [[]] ->
  separate_single T d = Undefined.
Proof.
  intros H. unfold separate_single.
  rewrite separate_getlines_pieces by lia. simpl app. rewrite H.
  simpl bind. rewrite rev_app_distr. reflexivity.
Qed.

Lemma separate_single_last_char (T : str) (d x : ascii) (v : list str) (p : str) :
  x <> d ->
  drop_trailing_empty (split_on d T) = v ++ [p ++ [x]] ->
  separate_single T d = Ret (v ++ [p ++ [x]]).
Proof.
  intros Hx H. unfold separate_single.
  rewrite separate_getlines_pieces by lia. simpl app. rewrite H.
  simpl bind. rewrite rev_app_distr. simpl rev. simpl app. cbv iota.
  rewrite back_snoc. simpl bind.
  destruct (Ascii.eqb_spec x d); [congruence|reflexivity].
Qed.

Lemma ends_with_other_char (d : ascii) (T : str) :
  T <> [] -> ends_with_char d T = false ->
  exists T' x, T = T' ++ [x] /\ x <> d.
Proof.
  intros Hne Hend. destruct (exists_last Hne) as (T' & x & ->).
  exists T', x. split; [reflexivity|].
  unfold ends_with_char in Hend. rewrite rev_app_distr in Hend. simpl in Hend.
  intros ->. rewrite Ascii.eqb_refl in Hend. discriminate.
Qed.

Lemma separate_single_segments (T : str) (d : ascii) :
  T <> [] -> ends_with_char d T = false ->
  separate_single T d = Ret (split_on d T).
Proof.
  intros Hne Hend.
  destruct (ends_with_other_char d T Hne Hend) as (T' & x & -> & Hx).
  rewrite (split_on_snoc_other d x T' Hx).
  apply separate_single_last_char; [exact Hx|].
  rewrite (split_on_snoc_other d x T' Hx).
  apply drop_trailing_empty_snoc_full. destruct (last (split_on d T') []); discriminate.
Qed.

Lemma join_with_cons (delimiter x : str) (v : list str) :
  v <> [] -> join_with delimiter (x :: v) = x ++ delimiter ++ join_with delimiter v.
Proof. destruct v; [congruence|reflexivity]. Qed.

Lemma separate_single_undefined (T : str) (d : ascii) (omit : bool) :
  separate T [d] omit = Undefined <-> separate_single T d = Undefined.
Proof.
  unfold separate. simpl.
  destruct (separate_single T d); simpl; split; intros H;
    try discriminate; reflexivity.
Qed.

Lemma separate_single_after_other (T : str) (d x : ascii) :
  x <> d -> separate_single (T ++ [x; d]) d = Ret (split_on d (T ++ [x])).
Proof.
  intros Hx. rewrite (split_on_snoc_other d x T Hx).
  apply separate_single_last_char; [exact Hx|].
  change [x; d] with ([x] ++ [d]).
  rewrite app_assoc, split_on_snoc_delim, drop_trailing_empty_snoc_empty.
  apply split_on_snoc_other. exact Hx.
Qed.

(** Joined with the separator, the pieces give the text back. *)
Lemma join_split_on (d : ascii) (s : str) : join_with [d] (split_on d s) = s.
Proof.
  induction s as [|c s IH]; [reflexivity|]. simpl split_on.
  pose proof (split_on_nonempty d s) as Hne.
  destruct (Ascii.eqb_spec c d) as [->|Hc].
  - rewrite join_with_cons by exact Hne. rewrite IH. reflexivity.
  - destruct (split_on d s) as [|p [|q ps]]; [congruence| |].
    + simpl in *. rewrite IH. reflexivity.
    + rewrite join_with_cons by discriminate.
      rewrite join_with_cons in IH by discriminate.
      simpl. rewrite <- IH. reflexivity.
Qed.

(** With a separator of one character, a text that ends with it after
    another character comes back without that last separator. *)
Lemma separate_single_drops_last_separator (T : str) (d x : ascii) :
  x <> d ->
  exists segs,
    separate (T ++ [x; d]) [d] false = Ret segs
    /\ join_with [d] segs = T ++ [x].
Proof.
  intros Hx. exists (split_on d (T ++ [x])). split.
  - unfold separate. simpl. rewrite (separate_single_after_other T d x Hx).
    reflexivity.
  - apply join_split_on.
Qed.

(** C10: with a separator of one character [d], [back()] is called on an
    empty string exactly for the text that is [d] alone and for the texts
    that end with [d] twice: they leave an empty last element in the vector,
    and the guard looks at the vector only.  [","] and [",,"] are such
    texts. *)
Theorem separate_back_of_empty_string (T : str) (d : ascii) (omit : bool) :
  (separate T [d] omit = Undefined <->
   T = [d] \/ exists T', T = T' ++ [d; d])
  /\ separate (lit ",") (lit ",") omit = Undefined
  /\ separate (lit ",,") (lit ",") omit = Undefined.
Proof.
  split; [|split; reflexivity].
  rewrite separate_single_undefined. split.
  - intros H. destruct T as [|c0 T0] eqn:ET; [discriminate|]. rewrite <- ET in *.
    destruct (exists_last (l:=T)) as (T1 & x & E1); [subst T; discriminate|].
    rewrite E1 in *. clear ET E1 c0 T0.
    destruct (ascii_dec x d) as [->|Hx].
    + destruct T1 as [|c1 T1'] eqn:ET; [left; reflexivity|].
      rewrite <- ET in *.
      destruct (exists_last (l:=T1)) as (T2 & y & E2); [subst T1; discriminate|].
      rewrite E2 in *. clear ET E2 c1 T1'.
      destruct (ascii_dec y d) as [->|Hy].
      * right. exists T2. rewrite <- app_assoc. reflexivity.
      * rewrite <- app_assoc in H. simpl app in H.
        rewrite (separate_single_after_other T2 d y Hy) in H. discriminate.
    + rewrite separate_single_segments in H; [discriminate| |].
      * destruct T1; discriminate.
      * unfold ends_with_char. rewrite rev_app_distr. simpl.
        destruct (Ascii.eqb_spec x d); [congruence|reflexivity].
  - intros [->|(T' & ->)].
    + apply (separate_single_last_empty [d] d []).
      simpl. rewrite Ascii.eqb_refl. reflexivity.
    + apply (separate_single_last_empty (T' ++ [d; d]) d (split_on d T')).
      change [d; d] with ([d] ++ [d]). rewrite app_assoc.
      rewrite !split_on_snoc_delim. apply drop_trailing_empty_snoc_empty.
Qed.

(** ** Prefixes and occurrences *)

Lemma is_prefix_app (p t : str) : is_prefix p (p ++ t) = true.
Proof.
  induction p as [|a p IH]; simpl; [reflexivity|].
  rewrite Ascii.eqb_refl. exact IH.
Qed.

Lemma is_prefix_inv (p : str) :
  forall s, is_prefix p s = true -> s = p ++ skipn (length p) s.
Proof.
  induction p as [|a p IH]; intros s H; [reflexivity|].
  destruct s as [|b s]; [discriminate|]. simpl in H.
  apply andb_true_iff in H. destruct H as [Hab Hp].
  apply Ascii.eqb_eq in Hab. subst b. simpl. f_equal. apply IH. exact Hp.
Qed.

Lemma is_prefix_length (p s : str) :
  is_prefix p s = true -> (length p <= length s)%nat.
Proof.
  intros H. rewrite (is_prefix_inv p s H), length_app. lia.
Qed.

Lemma is_prefix_shorten (p : str) :
  forall x y, is_prefix p (x ++ y) = true -> (length p <= length x)%nat ->
              is_prefix p x = true.
Proof.
  induction p as [|a p IH]; intros x y H Hlen; [reflexivity|].
  destruct x as [|b x]; [simpl in Hlen; lia|]. simpl in *.
  apply andb_true_iff in H. destruct H as [Hab Hp].
  rewrite Hab. simpl. apply (IH x y Hp). lia.
Qed.

Lemma is_prefix_nil (p : str) : p <> [] -> is_prefix p [] = false.
Proof. destruct p; [congruence|reflexivity]. Qed.

Lemma search_none_all (sub : str) :
  forall w, search sub w = None -> forall k, is_prefix sub (skipn k w) = false.
Proof.
  induction w as [|c w IH]; simpl; intros H k.
  - rewrite skipn_nil. destruct (is_prefix sub []); [discriminate|reflexivity].
  - destruct (is_prefix sub (c :: w)) eqn:E; [discriminate|].
    destruct k as [|k]; [exact E|]. simpl. apply IH.
    destruct (search sub w); [discriminate|reflexivity].
Qed.

Lemma search_some_prefix (sub : str) :
  forall w k, search sub w = Some k ->
              is_prefix sub (skipn k w) = true /\ (k <= length w)%nat.
Proof.
  induction w as [|c w IH]; simpl; intros k H.
  - destruct (is_prefix sub []) eqn:E; [|discriminate].
    injection H as <-. split; [exact E|lia].
  - destruct (is_prefix sub (c :: w)) eqn:E.
    + injection H as <-. split; [exact E|lia].
    + destruct (search sub w) as [j|]; [|discriminate].
      injection H as <-. destruct (IH j eq_refl) as [Hp Hj].
      split; [exact Hp|lia].
Qed.

Lemma search_none_nonempty (sub w : str) : search sub w = None -> sub <> [].
Proof.
  intros H ->. pose proof (search_none_all [] w H 0%nat) as E. discriminate.
Qed.

Lemma search_nil (sub : str) : sub <> [] -> search sub [] = None.
Proof. intros H. simpl. rewrite (is_prefix_nil sub H). reflexivity. Qed.

(** When a word without occurrence gets one by a new last character, the
    occurrence is at its very end. *)
Lemma search_new_match_at_end (sub word : str) (c : ascii) (k : nat) :
  search sub word = None ->
  search sub (word ++ [c]) = Some k ->
  word ++ [c] = firstn k (word ++ [c]) ++ sub
  /\ length (firstn k (word ++ [c])) = k.
Proof.
  intros Hnone Hsome.
  destruct (search_some_prefix sub _ k Hsome) as [Hp Hk].
  pose proof (search_none_nonempty sub word Hnone) as Hsub.
  pose proof (is_prefix_inv sub _ Hp) as Hsplit.
  split; [|apply firstn_length_le; exact Hk].
  rewrite <- (firstn_skipn k (word ++ [c])) at 1. f_equal.
  destruct (skipn (length sub) (skipn k (word ++ [c]))) as [|t0 t] eqn:Et.
  - rewrite Hsplit at 1. rewrite app_nil_r. reflexivity.
  - exfalso.
    assert (Hk' : (k <= length word)%nat).
    { rewrite length_app in Hk. simpl in Hk.
      assert (k = S (length word) \/ k <= length word)%nat as [->|] by lia; [|assumption].
      rewrite skipn_all2 in Hsplit by (rewrite length_app; simpl; lia).
      destruct sub; [congruence|discriminate]. }
    rewrite skipn_app in Hsplit.
    replace (k - length word)%nat with 0%nat in Hsplit by lia.
    simpl skipn in Hsplit at 2.
    destruct (exists_last (A:=ascii) (l:=t0 :: t)) as (t' & c' & Et');
      [discriminate|].
    rewrite Et' in Hsplit. rewrite app_assoc in Hsplit.
    apply app_inj_tail in Hsplit. destruct Hsplit as [Hw _].
    pose proof (search_none_all sub word Hnone k) as Hfalse.
    rewrite Hw, is_prefix_app in Hfalse. discriminate.
Qed.

Lemma occurrences_from_length (sub s : str) :
  forall off off',
    length (occurrences_from sub s off) = length (occurrences_from sub s off').
Proof.
  induction s as [|c s IH]; intros off off'; simpl.
  - destruct (is_prefix sub []); reflexivity.
  - rewrite !length_app, (IH (S off) (S off')).
    destruct (is_prefix sub (c :: s)); reflexivity.
Qed.

Lemma occurrences_from_none (sub s : str) :
  (forall k, is_prefix sub (skipn k s) = false) ->
  forall off, occurrences_from sub s off = [].
Proof.
  induction s as [|c s IH]; intros H off; simpl;
    pose proof (H 0%nat) as H0; simpl in H0; rewrite H0.
  - reflexivity.
  - simpl. apply IH. intros k. exact (H (S k)).
Qed.

Lemma occurrences_from_skip (sub B : str) :
  forall A off,
    (forall k, (k < length A)%nat -> is_prefix sub (skipn k (A ++ B)) = false) ->
    occurrences_from sub (A ++ B) off = occurrences_from sub B (off + length A).
Proof.
  induction A as [|a A IH]; intros off H.
  - simpl. rewrite Nat.add_0_r. reflexivity.
  - simpl app. simpl occurrences_from.
    change (a :: A ++ B) with (skipn 0 ((a :: A) ++ B)).
    rewrite (H 0%nat) by (simpl; lia). simpl app.
    rewrite IH.
    + simpl length. f_equal. lia.
    + intros k Hk. apply (H (S k)). simpl. lia.
Qed.

Lemma no_overlap_suffix (sub B : str) :
  forall A, no_overlap sub (A ++ B) = true -> no_overlap sub B = true.
Proof.
  induction A as [|a A IH]; intros H; [exact H|].
  simpl in H. apply andb_true_iff in H. apply IH. apply H.
Qed.

Lemma no_overlap_cons (sub s : str) (c : ascii) :
  no_overlap sub (c :: s)
  = (if is_prefix sub (c :: s) then
       forallb (fun k => negb (is_prefix sub (skipn k (c :: s))))
               (seq 1 (length sub - 1))
     else true)
    && no_overlap sub s.
Proof. reflexivity. Qed.

Lemma occurrences_from_cons (sub s : str) (c : ascii) (off : nat) :
  occurrences_from sub (c :: s) off
  = (if is_prefix sub (c :: s) then [off] else [])
    ++ occurrences_from sub s (S off).
Proof. reflexivity. Qed.

(** Where [sub] occurs in a text without overlaps, the next occurrence is
    to be found after it. *)
Lemma occurrences_from_match (sub r : str) (off : nat) :
  sub <> [] ->
  no_overlap sub (sub ++ r) = true ->
  occurrences_from sub (sub ++ r) off
  = off :: occurrences_from sub r (off + length sub).
Proof.
  intros Hsub Hno.
  destruct sub as [|d0 sub'] eqn:Esub; [congruence|]. rewrite <- Esub in *.
  assert (Hcons : sub ++ r = d0 :: (sub' ++ r)) by (subst sub; reflexivity).
  assert (Hlen : length sub = S (length sub')) by (subst sub; reflexivity).
  pose proof (is_prefix_app sub r) as Hp.
  rewrite Hcons in Hno, Hp |- *.
  rewrite no_overlap_cons, Hp in Hno.
  apply andb_true_iff in Hno. destruct Hno as [Hall _].
  rewrite forallb_forall in Hall.
  rewrite occurrences_from_cons, Hp. simpl app. f_equal.
  rewrite occurrences_from_skip.
  - f_equal. lia.
  - intros k Hk. specialize (Hall (S k)).
    simpl skipn in Hall. apply negb_true_iff. apply Hall.
    apply in_seq. lia.
Qed.

(** The occurrences of a text cut after a first match at the end of
    [word ++ [c]]. *)
Lemma occurrences_after_first_match (sub word seg r : str) (c : ascii) :
  search sub word = None ->
  word ++ [c] = seg ++ sub ->
  no_overlap sub (word ++ c :: r) = true ->
  length (occurrences sub (word ++ c :: r))
  = S (length (occurrences sub r)).
Proof.
  intros Hnone Hsplit Hno.
  pose proof (search_none_nonempty sub word Hnone) as Hsub.
  assert (Htext : word ++ c :: r = seg ++ (sub ++ r)).
  { rewrite app_cons_assoc, Hsplit, <- app_assoc. reflexivity. }
  unfold occurrences. rewrite Htext in Hno |- *.
  rewrite occurrences_from_skip.
  - rewrite occurrences_from_match;
      [|exact Hsub|exact (no_overlap_suffix sub _ seg Hno)].
    simpl length. f_equal. apply occurrences_from_length.
  - intros k Hk. rewrite <- Htext.
    destruct (is_prefix sub (skipn k (word ++ c :: r))) eqn:E; [|reflexivity].
    exfalso.
    assert (Hlen : (length word + 1 = length seg + length sub)%nat).
    { apply (f_equal (@length ascii)) in Hsplit.
      rewrite !length_app in Hsplit. exact Hsplit. }
    rewrite skipn_app in E.
    replace (k - length word)%nat with 0%nat in E by lia. simpl skipn in E at 2.
    apply is_prefix_shorten in E; [|rewrite length_skipn; lia].
    rewrite (search_none_all sub word Hnone k) in E. discriminate.
Qed.

(** ** [separate], the general branch *)

Lemma find_zero (w sub : str) :
  find w sub 0 = match search sub w with
                 | Some k => Z.of_nat k
                 | None => npos
                 end.
Proof.
  unfold find. pose proof (len_nonneg w).
  destruct (Z.ltb_spec (len w) 0); [lia|]. simpl skipn.
  destruct (search sub w); reflexivity.
Qed.

(** On a word whose length fits an [int], [contains] tells whether the
    separator occurs. *)
Lemma contains_search (w sub : str) :
  len w <= int_max ->
  contains w sub = match search sub w with
                   | Some _ => true
                   | None => false
                   end.
Proof.
  intros Hw. unfold contains. rewrite find_zero.
  destruct (search sub w) as [k|] eqn:E.
  - destruct (search_some_prefix sub w k E) as [_ Hk].
    assert (0 <= Z.of_nat k <= len w) by (unfold len; lia).
    unfold int_max in Hw.
    rewrite to_int_small by (unfold int_min, int_max; lia).
    rewrite to_size_t_small by (unfold size_max; lia).
    destruct (Z.leb_spec 0 (Z.of_nat k)); [|lia].
    destruct (Z.leb_spec (Z.of_nat k) (len w)); [reflexivity|lia].
  - reflexivity.
Qed.

Lemma erase_suffix (seg sub : str) :
  erase (seg ++ sub) (Z.of_nat (length seg)) (len sub) = Ret seg.
Proof.
  unfold erase. rewrite len_app. pose proof (len_nonneg sub).
  destruct (Z.ltb_spec (len seg + len sub) (Z.of_nat (length seg)));
    [unfold len in *; lia|].
  rewrite Nat2Z.id. unfold len. rewrite Nat2Z.id.
  rewrite firstn_app, Nat.sub_diag, firstn_all. simpl firstn.
  rewrite skipn_length_app, skipn_all, !app_nil_r. reflexivity.
Qed.

Lemma separate_loop_step fuel s separator i word v :
  separate_loop (S fuel) s separator i word v =
  if to_size_t i <? len s then
    match nth_error s (Z.to_nat (to_size_t i)) with
    | None => Undefined
    | Some c =>
        if contains (word ++ [c]) separator then
          erased <- erase (word ++ [c]) (find (word ++ [c]) separator 0)
                          (len separator) ;;
          separate_loop fuel s separator (to_int (i + 1)) [] (v ++ [erased])
        else separate_loop fuel s separator (to_int (i + 1)) (word ++ [c]) v
    end
  else Ret (v, word).
Proof. reflexivity. Qed.

(** The loop of the general branch, started at offset [len pre] with a
    [word] that holds no separator: it cuts the rest of the text at each
    separator it completes.  Joined with the separator, the segments and the
    last word give back what was scanned; and when the occurrences of the
    separator do not overlap, there is one segment for each. *)
Lemma separate_loop_segments (D rest : str) :
  forall (pre word : str) (v : list str) (fuel : nat),
    len (pre ++ rest) <= int_max ->
    (length rest + 1 <= fuel)%nat ->
    search D word = None ->
    (length word <= length pre)%nat ->
    exists segs w,
      separate_loop fuel (pre ++ rest) D (len pre) word v = Ret (v ++ segs, w)
      /\ join_with D (segs ++ [w]) = word ++ rest
      /\ (no_overlap D (word ++ rest) = true ->
          length segs = length (occurrences D (word ++ rest))).
Proof.
  induction rest as [|c rest IH]; intros pre word v fuel Hmax Hfuel Hword Hwp;
    (destruct fuel as [|fuel]; [lia|]); rewrite separate_loop_step;
    pose proof (len_nonneg pre) as Hpre.
  - rewrite app_nil_r in *.
    rewrite (to_size_t_small (len pre))
      by (unfold int_max, size_max in *; lia).
    destruct (Z.ltb_spec (len pre) (len pre)); [lia|].
    exists [], word. rewrite !app_nil_r. repeat split.
    intros _. unfold occurrences.
    rewrite occurrences_from_none; [reflexivity|].
    apply search_none_all. exact Hword.
  - rewrite len_app, len_cons in Hmax. pose proof (len_nonneg rest) as Hrest.
    rewrite (to_size_t_small (len pre))
      by (unfold int_max, size_max in *; lia).
    destruct (Z.ltb_spec (len pre) (len (pre ++ c :: rest)));
      [|rewrite len_app, len_cons in *; lia].
    unfold len at 1. rewrite Nat2Z.id, nth_error_length_app.
    assert (Hw' : len (word ++ [c]) <= int_max).
    { rewrite len_snoc. unfold len in *. lia. }
    rewrite (contains_search _ D Hw').
    rewrite (to_int_small (len pre + 1))
      by (unfold int_min, int_max in *; lia).
    rewrite (app_cons_assoc pre rest c), <- (len_snoc pre c).
    assert (Hmax' : len ((pre ++ [c]) ++ rest) <= int_max).
    { rewrite len_app, len_snoc. lia. }
    assert (Hfuel' : (length rest + 1 <= fuel)%nat) by (simpl in Hfuel; lia).
    destruct (search D (word ++ [c])) as [k|] eqn:E.
    + destruct (search_new_match_at_end D word c k Hword E) as [Hsplit Hk].
      pose proof (search_none_nonempty D word Hword) as HD.
      rewrite find_zero, E.
      set (seg := firstn k (word ++ [c])) in *.
      assert (Herase : erase (word ++ [c]) (Z.of_nat k) (len D) = Ret seg).
      { rewrite Hsplit, <- Hk. apply erase_suffix. }
      destruct (IH (pre ++ [c]) [] (v ++ [seg]) fuel Hmax' Hfuel'
                   (search_nil D HD)) as (segs & w & Hloop & Hjoin & Hcount);
        [simpl; lia|].
      exists (seg :: segs), w. rewrite Herase. unfold bind. rewrite Hloop.
      repeat split.
      * rewrite <- app_assoc. reflexivity.
      * simpl app at 1.
        rewrite join_with_cons by (destruct segs; discriminate).
        rewrite Hjoin. simpl app.
        rewrite (app_cons_assoc word rest c), Hsplit, <- app_assoc.
        reflexivity.
      * intros Hno. simpl app in Hcount.
        rewrite (occurrences_after_first_match D word seg rest c Hword Hsplit Hno).
        simpl. f_equal. apply Hcount.
        rewrite app_cons_assoc in Hno.
        exact (no_overlap_suffix D rest _ Hno).
    + destruct (IH (pre ++ [c]) (word ++ [c]) v fuel Hmax' Hfuel' E)
        as (segs & w & Hloop & Hjoin & Hcount);
        [rewrite !length_app; simpl; lia|].
      exists segs, w. rewrite Hloop. rewrite <- !app_cons_assoc in *.
      repeat split; assumption.
Qed.

Lemma separate_multi_segments (T D : str) :
  len T <= int_max -> D <> [] ->
  exists segs,
    separate_multi T D = Ret segs
    /\ join_with D segs = T
    /\ (no_overlap D T = true ->
        length segs = (length (occurrences D T) + 1)%nat).
Proof.
  intros HT HD. unfold separate_multi.
  destruct (separate_loop_segments D T [] [] [] (length T + 1))
    as (segs & w & Hloop & Hjoin & Hcount);
    [exact HT|lia|exact (search_nil D HD)|simpl; lia|].
  change (len []) with 0 in Hloop. simpl app in *.
  exists (segs ++ [w]). rewrite Hloop. unfold bind. repeat split.
  - exact Hjoin.
  - intros Hno. rewrite length_app, (Hcount Hno). reflexivity.
Qed.

(** X5: the general branch keeps every segment: joined with the separator,
    the segments of a text give the text back. *)
Lemma separate_multi_roundtrip (T D : str) :
  len T <= int_max -> 2 <= len D ->
  exists segs, separate T D false = Ret segs /\ join_with D segs = T.
Proof.
  intros HT HD.
  assert (HD' : D <> []) by (intros ->; unfold len in HD; simpl in HD; lia).
  destruct (separate_multi_segments T D HT HD') as (segs & Hsep & Hjoin & _).
  exists segs. split; [|exact Hjoin].
  unfold separate. destruct (Z.eqb_spec (len D) 1); [lia|].
  rewrite Hsep. reflexivity.
Qed.

Lemma occurrences_from_single (d : ascii) (s : str) :
  forall off,
    length (occurrences_from [d] s off) = count_occ ascii_dec s d.
Proof.
  induction s as [|c s IH]; intros off; [reflexivity|].
  rewrite occurrences_from_cons, length_app, IH. simpl.
  destruct (Ascii.eqb_spec d c) as [->|Hdc].
  - destruct (ascii_dec c c); [reflexivity|congruence].
  - destruct (ascii_dec c d); [congruence|reflexivity].
Qed.

(** C2, as the code has it: [separate(T, D, false)] has
    [findAll(T, D).length + 1] segments when the occurrences of [D] in [T]
    do not overlap and, for a separator of one character, [T] is not empty
    and does not end with it.  ([T] is indexed by an [int].) *)
Theorem separate_segment_count (T D : str) :
  D <> [] ->
  len T <= int_max ->
  no_overlap D T = true ->
  (forall d, D = [d] -> T <> [] /\ ends_with_char d T = false) ->
  exists segs positions,
    separate T D false = Ret segs
    /\ findAll T D = Ret positions
    /\ length segs = (length positions + 1)%nat.
Proof.
  intros HD HT Hno Hsingle.
  assert (Hnpos : len T < npos) by (pose proof int_max_lt_npos; lia).
  rewrite (findAll_occurrences T D Hnpos).
  destruct D as [|d [|d' D']]; [congruence| |].
  - destruct (Hsingle d eq_refl) as [Hne Hend].
    exists (split_on d T), (map Z.of_nat (occurrences [d] T)).
    split; [|split; [reflexivity|]].
    + unfold separate. simpl. rewrite (separate_single_segments T d Hne Hend).
      reflexivity.
    + rewrite length_map, split_on_length. unfold occurrences.
      rewrite occurrences_from_single. reflexivity.
  - set (D := d :: d' :: D') in *.
    destruct (separate_multi_segments T D HT HD) as (segs & Hsep & _ & Hcount).
    exists segs, (map Z.of_nat (occurrences D T)).
    split; [|split; [reflexivity|]].
    + unfold separate.
      destruct (Z.eqb_spec (len D) 1) as [E|_].
      * unfold len, D in E. simpl length in E. lia.
      * rewrite Hsep. reflexivity.
    + rewrite length_map. exact (Hcount Hno).
Qed.

Lemma separate_segment_count_witness :
  (lit "--" <> [] /\ len (lit "a--b--c") <= int_max
   /\ no_overlap (lit "--") (lit "a--b--c") = true)
  /\ (exists segs positions,
        separate (lit "a--b--c") (lit "--") false = Ret segs
        /\ findAll (lit "a--b--c") (lit "--") = Ret positions
        /\ length segs = (length positions + 1)%nat)
  /\ (lit "a,b" <> [] /\ ends_with_char "," (lit "a,b") = false)
  /\ (exists segs positions,
        separate (lit "a,b") (lit ",") false = Ret segs
        /\ findAll (lit "a,b") (lit ",") = Ret positions
        /\ length segs = (length positions + 1)%nat).
Proof.
  split; [repeat split; discriminate|].
  split.
  - apply (separate_segment_count (lit "a--b--c") (lit "--")).
    + discriminate.
    + discriminate.
    + reflexivity.
    + intros d H. discriminate H.
  - split; [split; [discriminate|reflexivity]|].
    apply (separate_segment_count (lit "a,b") (lit ",")).
    + discriminate.
    + discriminate.
    + reflexivity.
    + intros d H. injection H as <-. split; [discriminate|reflexivity].
Defined.

(** C2 as stated fails: ["aa"] occurs twice in ["aaa"], at the overlapping
    offsets 0 and 1, and [separate] returns two segments, not three. *)
Lemma separate_segment_count_counterexample :
  separate (lit "aaa") (lit "aa") false = Ret [lit ""; lit "a"]
  /\ findAll (lit "aaa") (lit "aa") = Ret [0; 1].
Proof. split; reflexivity. Qed.

(** C3: with a separator of one character the segment after a last
    separator is lost.  ["a,"] comes back as the single segment ["a"], and
    joining gives ["a"]; the general branch returns ["a"; ""] for
    ["a--"], which joins to the text. *)
Theorem separate_single_loses_trailing_separator :
  separate (lit "a,") (lit ",") false = Ret [lit "a"]
  /\ join_with (lit ",") [lit "a"] = lit "a"
  /\ separate (lit "a--") (lit "--") false = Ret [lit "a"; lit ""]
  /\ join_with (lit "--") [lit "a"; lit ""] = lit "a--".
Proof. repeat split. Qed.

(** ** [isFloat] *)

Lemma isFloat_loop_step point fuel s charIndex seen :
  isFloat_loop point (S fuel) s charIndex seen =
  if to_size_t charIndex <? len s then
    match nth_error s (Z.to_nat (to_size_t charIndex)) with
    | None => Undefined
    | Some c =>
        if (charIndex =? 0) && Ascii.eqb c "-" then
          isFloat_loop point fuel s (to_int (charIndex + 1)) seen
        else if negb seen && Ascii.eqb c point then
          isFloat_loop point fuel s (to_int (charIndex + 1)) true
        else if negb (isdigit c) then Ret None
        else isFloat_loop point fuel s (to_int (charIndex + 1)) seen
    end
  else Ret (Some seen).
Proof. reflexivity. Qed.

Lemma is_nil_len (pre : str) : (len pre =? 0) = is_nil pre.
Proof. destruct pre; reflexivity. Qed.

Lemma is_nil_snoc (pre : str) c : is_nil (pre ++ [c]) = false.
Proof. destruct pre; reflexivity. Qed.

Lemma isFloat_loop_scan (point : ascii) (rest : str) :
  forall (pre : str) (seen : bool) (fuel : nat),
    len (pre ++ rest) <= int_max ->
    (length rest + 1 <= fuel)%nat ->
    isFloat_loop point fuel (pre ++ rest) (len pre) seen
    = Ret (scan_chars point (is_nil pre) rest seen).
Proof.
  induction rest as [|c rest IH]; intros pre seen fuel Hmax Hfuel;
    (destruct fuel as [|fuel]; [lia|]); rewrite isFloat_loop_step;
    pose proof (len_nonneg pre) as Hpre.
  - rewrite app_nil_r in *.
    rewrite to_size_t_small by (unfold int_max, size_max in *; lia).
    destruct (Z.ltb_spec (len pre) (len pre)); [lia|reflexivity].
  - rewrite len_app, len_cons in Hmax. pose proof (len_nonneg rest).
    rewrite to_size_t_small by (unfold int_max, size_max in *; lia).
    destruct (Z.ltb_spec (len pre) (len (pre ++ c :: rest)));
      [|rewrite len_app, len_cons in *; lia].
    unfold len at 1. rewrite Nat2Z.id, nth_error_length_app.
    rewrite (to_int_small (len pre + 1))
      by (unfold int_min, int_max in *; lia).
    rewrite is_nil_len.
    rewrite (app_cons_assoc pre rest c), <- (len_snoc pre c).
    assert (Hmax' : len ((pre ++ [c]) ++ rest) <= int_max).
    { rewrite len_app, len_snoc. lia. }
    assert (Hfuel' : (length rest + 1 <= fuel)%nat) by (simpl in Hfuel; lia).
    rewrite !(IH (pre ++ [c]) _ fuel Hmax' Hfuel'), is_nil_snoc.
    simpl scan_chars.
    destruct (is_nil pre && Ascii.eqb c "-"); [reflexivity|].
    destruct (negb seen && Ascii.eqb c point); [reflexivity|].
    destruct (negb (isdigit c)); reflexivity.
Qed.

Lemma scan_chars_seen (point : ascii) (rest : str) :
  scan_chars point false rest true
  = if forallb isdigit rest then Some true else None.
Proof.
  induction rest as [|c rest IH]; simpl; [reflexivity|].
  destruct (isdigit c); simpl; [exact IH|reflexivity].
Qed.

Lemma scan_chars_unseen (point : ascii) :
  isdigit point = false ->
  forall rest,
    scan_chars point false rest false = Some true <->
    exists ip fp, rest = ip ++ point :: fp
                  /\ forallb isdigit ip = true /\ forallb isdigit fp = true.
Proof.
  intros Hpoint. induction rest as [|c rest IH]; simpl.
  - split; [discriminate|]. intros (ip & fp & H & _). destruct ip; discriminate.
  - destruct (Ascii.eqb_spec c point) as [->|Hc].
    + rewrite scan_chars_seen. split.
      * intros H. exists [], rest. repeat split.
        destruct (forallb isdigit rest); [reflexivity|discriminate].
      * intros (ip & fp & H & Hip & Hfp). destruct ip as [|a ip].
        -- injection H as ->. rewrite Hfp. reflexivity.
        -- injection H as <- _. simpl in Hip. rewrite Hpoint in Hip. discriminate.
    + destruct (isdigit c) eqn:Hd; simpl.
      * rewrite IH. split.
        -- intros (ip & fp & -> & Hip & Hfp). exists (c :: ip), fp.
           repeat split; [|exact Hfp]. simpl. rewrite Hd, Hip. reflexivity.
        -- intros (ip & fp & H & Hip & Hfp). destruct ip as [|a ip].
           ++ injection H as -> _. congruence.
           ++ injection H as <- ->. exists ip, fp. repeat split; [|exact Hfp].
              simpl in Hip. apply andb_true_iff in Hip. apply Hip.
      * split; [discriminate|]. intros (ip & fp & H & Hip & Hfp).
        destruct ip as [|a ip].
        -- injection H as -> _. congruence.
        -- injection H as <- _. simpl in Hip. rewrite Hd in Hip. discriminate.
Qed.

Lemma scan_chars_first (point : ascii) (T : str) (seen : bool) :
  scan_chars point true T seen = scan_chars point false (snd (strip_minus T)) seen.
Proof.
  destruct T as [|c T]; [reflexivity|]. simpl.
  destruct (Ascii.eqb c "-"); reflexivity.
Qed.

Lemma span_digits_all (ds : str) :
  forallb isdigit ds = true -> span_digits ds = (ds, []).
Proof.
  induction ds as [|c ds IH]; intros H; [reflexivity|]. simpl in *.
  apply andb_true_iff in H. destruct H as [Hc Hds].
  rewrite Hc, (IH Hds). reflexivity.
Qed.

Lemma span_digits_stop (ds rest : str) (c : ascii) :
  forallb isdigit ds = true -> isdigit c = false ->
  span_digits (ds ++ c :: rest) = (ds, c :: rest).
Proof.
  intros Hds Hc. induction ds as [|a ds IH]; simpl.
  - rewrite Hc. reflexivity.
  - simpl in Hds. apply andb_true_iff in Hds. destruct Hds as [Ha Hds].
    rewrite Ha, (IH Hds). reflexivity.
Qed.

Lemma strip_minus_unsigned (ip fp : str) :
  forallb isdigit ip = true ->
  strip_minus (ip ++ "."%char :: fp) = (false, ip ++ "."%char :: fp).
Proof.
  intros Hip. destruct ip as [|a ip]; [reflexivity|]. simpl in *.
  destruct (Ascii.eqb_spec a "-") as [->|]; [discriminate|reflexivity].
Qed.

Lemma strip_minus_literal (T : str) (d : decimal) :
  float_literal "." T d ->
  strip_minus T
  = (negative d, integer_digits d ++ "."%char :: fraction_digits d).
Proof.
  intros (sign & -> & [[-> ->]|[-> ->]] & Hip & Hfp).
  - apply strip_minus_unsigned. exact Hip.
  - reflexivity.
Qed.

(** What [std::from_chars] answers on a literal of the grammar. *)
Lemma from_chars_double_literal (in_range : decimal -> bool) (T : str)
  (d : decimal) :
  float_literal "." T d ->
  from_chars_double in_range T
  = match integer_digits d ++ fraction_digits d with
    | [] => errc_invalid_argument
    | _ :: _ => if in_range d then errc_none else errc_result_out_of_range
    end.
Proof.
  intros Hlit. unfold from_chars_double.
  rewrite (strip_minus_literal T d Hlit).
  destruct Hlit as (sign & _ & _ & Hip & Hfp).
  rewrite (span_digits_stop _ _ "." Hip eq_refl).
  rewrite Ascii.eqb_refl, (span_digits_all _ Hfp). simpl fst.
  destruct d; reflexivity.
Qed.

Lemma digits_hold_no_point (ds : str) :
  forallb isdigit ds = true -> count_occ ascii_dec ds "."%char = 0%nat.
Proof.
  induction ds as [|c ds IH]; intros H; [reflexivity|]. simpl in *.
  apply andb_true_iff in H. destruct H as [Hc Hds].
  destruct (ascii_dec c "."); [subst c; discriminate|]. apply IH, Hds.
Qed.

Lemma float_literal_one_point (T : str) (d : decimal) :
  float_literal "." T d -> count_occ ascii_dec T "."%char = 1%nat.
Proof.
  intros (sign & -> & Hsign & Hip & Hfp).
  rewrite !count_occ_app. simpl.
  rewrite (digits_hold_no_point _ Hip), (digits_hold_no_point _ Hfp).
  destruct Hsign as [[-> _]|[-> _]]; reflexivity.
Qed.

(** The scanning loop accepts exactly the texts of the grammar. *)
Lemma scan_chars_literal (T : str) :
  scan_chars "." true T false = Some true <-> exists d, float_literal "." T d.
Proof.
  rewrite scan_chars_first, (scan_chars_unseen "." eq_refl). split.
  - intros (ip & fp & HT & Hip & Hfp).
    destruct T as [|c T]; [destruct ip; discriminate|].
    simpl in HT. destruct (Ascii.eqb_spec c "-") as [->|Hc].
    + simpl in HT. exists (mk_decimal true ip fp), ["-"%char].
      simpl. subst T. repeat split; auto.
    + simpl in HT. exists (mk_decimal false ip fp), [].
      simpl. rewrite HT. repeat split; auto.
  - intros (d & Hlit). rewrite (strip_minus_literal T d Hlit). simpl snd.
    destruct Hlit as (sign & _ & _ & Hip & Hfp).
    exists (integer_digits d), (fraction_digits d). repeat split; assumption.
Qed.

(** C8, as the code has it, for the decimal point ['.']: [isFloat] returns
    [true] exactly for the texts ['-'? digit* '.' digit*] that hold at least
    one digit and that [std::from_chars] finds in the range of [double];
    such a text holds exactly one ['.'].  A text without digit, as ["."], is
    rejected by [std::from_chars].  In particular ["7.0.0"] is rejected, and
    [".2"] is accepted when it is in range.  ([T] is indexed by an [int].) *)
Theorem isFloat_accepts_literals (in_range : decimal -> bool) (T : str) :
  len T <= int_max ->
  (exists b, isFloat in_range "." T = Ret b)
  /\ (isFloat in_range "." T = Ret true <->
      exists d, float_literal "." T d
                /\ count_occ ascii_dec T "."%char = 1%nat
                /\ integer_digits d ++ fraction_digits d <> []
                /\ in_range d = true)
  /\ isFloat in_range "." (lit "7.0.0") = Ret false
  /\ isFloat in_range "." (lit ".2")
     = Ret (in_range (mk_decimal false [] (lit "2"))).
Proof.
  intros HT.
  assert (Hloop : isFloat_loop "." (length T + 1) T 0 false
                  = Ret (scan_chars "." true T false)).
  { apply (isFloat_loop_scan "." T [] false (length T + 1)); [exact HT|lia]. }
  split; [|split; [|split]].
  - unfold isFloat. rewrite Hloop. unfold bind.
    destruct (scan_chars "." true T false) as [[|]|]; simpl;
      try (eexists; reflexivity).
    destruct (from_chars_double in_range T); eexists; reflexivity.
  - unfold isFloat. rewrite Hloop. unfold bind.
    destruct (scan_chars "." true T false) as [[|]|] eqn:Hscan; simpl.
    + destruct (proj1 (scan_chars_literal T) Hscan) as (d & Hlit).
      rewrite (from_chars_double_literal in_range T d Hlit). split.
      * intros H. exists d.
        split; [exact Hlit|]. split; [exact (float_literal_one_point T d Hlit)|].
        destruct (integer_digits d ++ fraction_digits d); [discriminate|].
        split; [discriminate|].
        destruct (in_range d); [reflexivity|discriminate].
      * intros (d' & Hlit' & _ & Hdigits & Hrange).
        rewrite <- (from_chars_double_literal in_range T d Hlit).
        rewrite (from_chars_double_literal in_range T d' Hlit').
        destruct (integer_digits d' ++ fraction_digits d'); [congruence|].
        rewrite Hrange. reflexivity.
    + split; [discriminate|]. intros (d & Hlit & _).
      assert (Hs : scan_chars "." true T false = Some true)
        by (apply scan_chars_literal; exists d; exact Hlit).
      congruence.
    + split; [discriminate|]. intros (d & Hlit & _).
      assert (Hs : scan_chars "." true T false = Some true)
        by (apply scan_chars_literal; exists d; exact Hlit).
      congruence.
  - reflexivity.
  - vm_compute. destruct (in_range _); reflexivity.
Qed.

Lemma isFloat_accepts_literals_witness :
  len (lit "-1.5") <= int_max
  /\ isFloat binary64_finite "." (lit "-1.5") = Ret true
  /\ isFloat binary64_finite "." (lit ".2") = Ret true.
Proof.
  assert (H : len (lit "-1.5") <= int_max) by discriminate.
  destruct (isFloat_accepts_literals binary64_finite (lit "-1.5") H)
    as (_ & Hiff & _ & Hpoint2).
  split; [exact H|]. split; [|exact Hpoint2].
  apply Hiff. exists (mk_decimal true (lit "1") (lit "5")).
  split; [exists ["-"%char]; repeat split; auto|].
  repeat split. discriminate.
Defined.

(** C8 as stated fails: ["."] is a text of the grammar with exactly one
    decimal point and no magnitude that could overflow, and [isFloat]
    returns [false] for it. *)
Lemma isFloat_counterexample :
  isFloat binary64_finite "." (lit ".") = Ret false
  /\ float_literal "." (lit ".") (mk_decimal false [] [])
  /\ count_occ ascii_dec (lit ".") "."%char = 1%nat
  /\ binary64_finite (mk_decimal false [] []) = true.
Proof.
  split; [reflexivity|]. split; [|split; reflexivity].
  exists []. repeat split. left. split; reflexivity.
Qed.

(** * Further properties of the header *)

(** ** [contains] and [findAll] *)

Lemma is_prefix_iff (sub s : str) :
  is_prefix sub s = true <-> exists post, s = sub ++ post.
Proof.
  split.
  - intros H. exists (skipn (length sub) s). apply is_prefix_inv. exact H.
  - intros (post & ->). apply is_prefix_app.
Qed.

Lemma occurs_at_iff (sub s : str) (k : nat) :
  ((k <= length s)%nat /\ is_prefix sub (skipn k s) = true) <->
  exists pre post, s = pre ++ sub ++ post /\ length pre = k.
Proof.
  split.
  - intros [Hk H]. apply is_prefix_iff in H. destruct H as (post & Hpost).
    exists (firstn k s), post. split.
    + rewrite <- Hpost. symmetry. apply firstn_skipn.
    + apply firstn_length_le. exact Hk.
  - intros (pre & post & -> & <-). split.
    + rewrite length_app. lia.
    + rewrite skipn_length_app. apply is_prefix_app.
Qed.

Lemma search_some_iff (sub s : str) :
  (exists k, search sub s = Some k) <-> exists pre post, s = pre ++ sub ++ post.
Proof.
  split.
  - intros (k & Hk). destruct (search_some_prefix sub s k Hk) as [Hp Hle].
    destruct (proj1 (occurs_at_iff sub s k) (conj Hle Hp)) as (pre & post & E & _).
    exists pre, post. exact E.
  - intros (pre & post & ->).
    destruct (search sub (pre ++ sub ++ post)) as [k|] eqn:E; [exists k; reflexivity|].
    pose proof (search_none_all sub _ E (length pre)) as H.
    rewrite skipn_length_app, is_prefix_app in H. discriminate.
Qed.

(** X1: on a text whose length fits an [int], [contains] is [true] exactly
    when the target occurs in the text as a contiguous run; the empty target
    is contained in every such text. *)
Theorem contains_iff_occurs (s sub : str) :
  len s <= int_max ->
  (contains s sub = true <-> exists pre post, s = pre ++ sub ++ post).
Proof.
  intros Hs. rewrite (contains_search s sub Hs), <- search_some_iff.
  destruct (search sub s) as [k|]; split; intros H.
  - exists k. reflexivity.
  - reflexivity.
  - discriminate.
  - destruct H as (k & H). discriminate.
Qed.

Lemma contains_iff_occurs_witness :
  len (lit "conflagration") <= int_max
  /\ contains (lit "conflagration") (lit "flag") = true
  /\ contains (lit "conflagration") (lit "") = true.
Proof.
  assert (H : len (lit "conflagration") <= int_max) by discriminate.
  split; [exact H|]. split.
  - apply (contains_iff_occurs (lit "conflagration") (lit "flag") H).
    exists (lit "con"), (lit "ration"). reflexivity.
  - apply (contains_iff_occurs (lit "conflagration") (lit "") H).
    exists [], (lit "conflagration"). reflexivity.
Defined.

Lemma occurrences_from_in (sub s : str) :
  forall off p,
    In p (occurrences_from sub s off) <->
    exists k, p = (off + k)%nat /\ (k <= length s)%nat
              /\ is_prefix sub (skipn k s) = true.
Proof.
  induction s as [|c s IH]; intros off p.
  - simpl. split.
    + intros H. destruct (is_prefix sub []) eqn:E; [|destruct H].
      destruct H as [<-|[]]. exists 0%nat.
      split; [lia|]. split; [lia|exact E].
    + intros (k & -> & Hk & H). simpl in Hk. assert (k = 0)%nat as -> by lia.
      simpl in H. rewrite H. left. lia.
  - rewrite occurrences_from_cons, in_app_iff, IH. split.
    + intros [H|(k & -> & Hk & H)].
      * destruct (is_prefix sub (c :: s)) eqn:E; [|destruct H].
        destruct H as [<-|[]]. exists 0%nat.
        split; [lia|]. split; [simpl; lia|exact E].
      * exists (S k). split; [lia|]. split; [simpl; lia|exact H].
    + intros (k & -> & Hk & H). destruct k as [|k].
      * left. simpl in H. rewrite H. left. lia.
      * right. exists k. split; [lia|]. split; [simpl in Hk; lia|exact H].
Qed.

Lemma occurrences_from_sorted (sub s : str) :
  forall off, StronglySorted lt (occurrences_from sub s off).
Proof.
  induction s as [|c s IH]; intros off.
  - simpl. destruct (is_prefix sub []); repeat constructor.
  - rewrite occurrences_from_cons.
    destruct (is_prefix sub (c :: s)); simpl; [|apply IH].
    constructor; [apply IH|]. apply Forall_forall. intros p Hp.
    apply occurrences_from_in in Hp. destruct Hp as (k & -> & _). lia.
Qed.

Lemma StronglySorted_map_of_nat (l : list nat) :
  StronglySorted lt l -> StronglySorted Z.lt (map Z.of_nat l).
Proof.
  induction 1 as [|a l Hs IH Hall]; simpl; constructor; [exact IH|].
  apply Forall_forall. intros z Hz. apply in_map_iff in Hz.
  destruct Hz as (n & <- & Hn). rewrite Forall_forall in Hall.
  specialize (Hall n Hn). lia.
Qed.

(** X2: [findAll] returns the offsets of all the occurrences of the target,
    overlapping ones included, and nothing else, in strictly ascending
    order. *)
Theorem findAll_all_occurrences (s sub : str) :
  len s < npos ->
  exists positions,
    findAll s sub = Ret positions
    /\ StronglySorted Z.lt positions
    /\ forall p, In p positions <->
                 exists pre post, s = pre ++ sub ++ post /\ p = len pre.
Proof.
  intros Hs. exists (map Z.of_nat (occurrences sub s)).
  split; [exact (findAll_occurrences s sub Hs)|]. split.
  - apply StronglySorted_map_of_nat, occurrences_from_sorted.
  - intros p. rewrite in_map_iff. unfold occurrences. split.
    + intros (n & <- & Hn). apply occurrences_from_in in Hn.
      destruct Hn as (k & -> & Hk & H). simpl.
      destruct (proj1 (occurs_at_iff sub s k) (conj Hk H)) as (pre & post & E & Hl).
      exists pre, post. split; [exact E|]. unfold len. rewrite Hl. reflexivity.
    + intros (pre & post & E & ->). exists (length pre). split; [reflexivity|].
      apply occurrences_from_in. exists (length pre). split; [reflexivity|].
      apply occurs_at_iff. exists pre, post. split; [exact E|reflexivity].
Qed.

Lemma findAll_all_occurrences_witness :
  len (lit "aaa") < npos
  /\ exists positions,
       findAll (lit "aaa") (lit "aa") = Ret positions
       /\ StronglySorted Z.lt positions
       /\ forall p, In p positions <->
                    exists pre post,
                      lit "aaa" = pre ++ lit "aa" ++ post /\ p = len pre.
Proof.
  split; [reflexivity|].
  apply (findAll_all_occurrences (lit "aaa") (lit "aa")). reflexivity.
Defined.

(** ** [separate] *)

Lemma search_none_contains (w sub : str) :
  search sub w = None -> contains w sub = false.
Proof.
  intros H. unfold contains. rewrite find_zero, H. reflexivity.
Qed.

Lemma search_none_of_contains (w sub : str) :
  len w <= int_max -> contains w sub = false -> search sub w = None.
Proof.
  intros Hw H. rewrite (contains_search w sub Hw) in H.
  destruct (search sub w); [discriminate|reflexivity].
Qed.

Lemma no_overlap_none (sub s : str) :
  (forall k, is_prefix sub (skipn k s) = false) -> no_overlap sub s = true.
Proof.
  induction s as [|c s IH]; intros H; [reflexivity|].
  rewrite no_overlap_cons. pose proof (H 0%nat) as H0. simpl in H0.
  rewrite H0. simpl. apply IH. intros k. exact (H (S k)).
Qed.

Lemma search_single_absent (d : ascii) (s : str) :
  search [d] s = None <-> ~ In d s.
Proof.
  split.
  - intros H Hin. apply in_split in Hin. destruct Hin as (l1 & l2 & ->).
    pose proof (search_none_all [d] _ H (length l1)) as E.
    rewrite skipn_length_app in E. simpl in E.
    rewrite Ascii.eqb_refl in E. discriminate.
  - intros H. destruct (search [d] s) as [k|] eqn:E; [|reflexivity].
    exfalso. apply H.
    destruct (proj1 (search_some_iff [d] s) (ex_intro _ k E)) as (pre & post & ->).
    apply in_or_app. right. left. reflexivity.
Qed.

Lemma ends_with_char_absent (d : ascii) (s : str) :
  ~ In d s -> ends_with_char d s = false.
Proof.
  intros H. unfold ends_with_char. destruct (rev s) as [|c r] eqn:E; [reflexivity|].
  destruct (Ascii.eqb_spec c d) as [->|]; [|reflexivity].
  exfalso. apply H. apply in_rev. rewrite E. left. reflexivity.
Qed.

Lemma remove_empty_single (T : str) : T <> [] -> remove_empty [T] = [T].
Proof. intros H. destruct T; [congruence|reflexivity]. Qed.

(** X3: a text that is not empty and does not contain the separator comes
    back as a single segment, the whole text, whether empty strings are
    omitted or not. *)
Theorem separate_without_separator (T D : str) (omit : bool) :
  T <> [] ->
  len T <= int_max ->
  contains T D = false ->
  separate T D omit = Ret [T].
Proof.
  intros Hne HT Hc.
  pose proof (search_none_of_contains T D HT Hc) as Hs.
  pose proof (search_none_nonempty D T Hs) as HD.
  assert (Hres : forall v, v = [T] ->
            Ret (if omit then remove_empty v else v) = Ret [T]).
  { intros v ->. destruct omit; [rewrite (remove_empty_single T Hne)|]; reflexivity. }
  destruct D as [|d [|d' D']]; [congruence| |].
  - apply search_single_absent in Hs.
    unfold separate. simpl.
    rewrite (separate_single_segments T d Hne (ends_with_char_absent d T Hs)).
    simpl. apply Hres. apply split_on_end. exact Hs.
  - set (D := d :: d' :: D') in *.
    destruct (separate_multi_segments T D HT HD) as (segs & Hsep & Hjoin & Hcount).
    unfold separate.
    destruct (Z.eqb_spec (len D) 1) as [E|_];
      [unfold len, D in E; simpl length in E; lia|].
    rewrite Hsep. simpl. apply Hres.
    pose proof (search_none_all D T Hs) as Hall.
    specialize (Hcount (no_overlap_none D T Hall)).
    unfold occurrences in Hcount.
    rewrite (occurrences_from_none D T Hall) in Hcount. simpl in Hcount.
    destruct segs as [|x [|y segs]]; simpl in Hcount; try lia.
    simpl in Hjoin. rewrite Hjoin. reflexivity.
Qed.

Lemma separate_without_separator_witness :
  (lit "John" <> [] /\ len (lit "John") <= int_max
   /\ contains (lit "John") (lit "@") = false)
  /\ separate (lit "John") (lit "@") true = Ret [lit "John"]
  /\ separate (lit "John") (lit "--") false = Ret [lit "John"].
Proof.
  split; [repeat split; discriminate|]. split.
  - apply (separate_without_separator (lit "John") (lit "@") true);
      [discriminate|discriminate|reflexivity].
  - apply (separate_without_separator (lit "John") (lit "--") false);
      [discriminate|discriminate|reflexivity].
Defined.

Lemma separate_loop_empty_separator (rest : str) :
  forall (pre : str) (v : list str) (fuel : nat),
    len (pre ++ rest) <= int_max ->
    (length rest + 1 <= fuel)%nat ->
    separate_loop fuel (pre ++ rest) [] (len pre) [] v
    = Ret (v ++ map (fun c => [c]) rest, []).
Proof.
  induction rest as [|c rest IH]; intros pre v fuel Hmax Hfuel;
    (destruct fuel as [|fuel]; [lia|]); rewrite separate_loop_step;
    pose proof (len_nonneg pre) as Hpre.
  - rewrite app_nil_r in *.
    rewrite (to_size_t_small (len pre))
      by (unfold int_max, size_max in *; lia).
    destruct (Z.ltb_spec (len pre) (len pre)); [lia|].
    simpl. rewrite app_nil_r. reflexivity.
  - rewrite len_app, len_cons in Hmax. pose proof (len_nonneg rest) as Hrest.
    rewrite (to_size_t_small (len pre))
      by (unfold int_max, size_max in *; lia).
    destruct (Z.ltb_spec (len pre) (len (pre ++ c :: rest)));
      [|rewrite len_app, len_cons in *; lia].
    unfold len at 1. rewrite Nat2Z.id, nth_error_length_app.
    rewrite (to_int_small (len pre + 1))
      by (unfold int_min, int_max in *; lia).
    rewrite (app_cons_assoc pre rest c), <- (len_snoc pre c).
    change (contains ([] ++ [c]) []) with true. cbv iota.
    change (erase ([] ++ [c]) (find ([] ++ [c]) [] 0) (len [])) with (Ret [c]).
    unfold bind. rewrite IH.
    + rewrite <- app_assoc. reflexivity.
    + rewrite len_app, len_snoc. lia.
    + simpl in Hfuel. lia.
Qed.

Lemma remove_empty_singletons (T : str) :
  remove_empty (map (fun c => [c]) T ++ [[]]) = map (fun c => [c]) T.
Proof.
  induction T as [|c T IH]; [reflexivity|]. simpl. f_equal. exact IH.
Qed.

(** X4: with the empty separator, [separate] returns one segment for each
    character of the text; when empty strings are kept, an empty segment
    follows them. *)
Theorem separate_by_empty_separator (T : str) (omit : bool) :
  len T <= int_max ->
  separate T [] omit
  = Ret (if omit then map (fun c => [c]) T
         else map (fun c => [c]) T ++ [[]]).
Proof.
  intros HT.
  pose proof (separate_loop_empty_separator T [] [] (length T + 1) HT) as H.
  simpl app in H. change (len []) with 0 in H.
  unfold separate, separate_multi. change (len [] =? 1) with false. cbv iota.
  rewrite H by lia.
  simpl. destruct omit; [rewrite remove_empty_singletons|]; reflexivity.
Qed.

Lemma separate_by_empty_separator_witness :
  len (lit "Hello") <= int_max
  /\ separate (lit "Hello") (lit "") true
     = Ret [lit "H"; lit "e"; lit "l"; lit "l"; lit "o"].
Proof.
  split; [discriminate|].
  apply (separate_by_empty_separator (lit "Hello") true). discriminate.
Defined.

Lemma separate_multi_roundtrip_witness :
  (len (lit "a--b----") <= int_max /\ 2 <= len (lit "--"))
  /\ exists segs,
       separate (lit "a--b----") (lit "--") false = Ret segs
       /\ join_with (lit "--") segs = lit "a--b----".
Proof.
  split; [split; discriminate|].
  apply (separate_multi_roundtrip (lit "a--b----") (lit "--")); discriminate.
Defined.

Lemma is_prefix_extend (p x y : str) :
  is_prefix p x = true -> is_prefix p (x ++ y) = true.
Proof.
  intros H. apply is_prefix_iff in H. destruct H as (post & ->).
  rewrite <- app_assoc. apply is_prefix_app.
Qed.

Lemma search_none_prefix (sub a b : str) :
  search sub (a ++ b) = None -> search sub a = None.
Proof.
  intros H. destruct (search sub a) as [k|] eqn:E; [|reflexivity].
  destruct (search_some_prefix sub a k E) as [Hp Hk].
  pose proof (search_none_all sub _ H k) as Hf.
  rewrite skipn_app in Hf. rewrite (is_prefix_extend _ _ _ Hp) in Hf.
  discriminate.
Qed.

(** The segments that the loop of the general branch cuts, and the word it
    is left with, hold no separator. *)
Lemma separate_loop_clean (D rest : str) :
  forall (pre word : str) (v : list str) (fuel : nat),
    len (pre ++ rest) <= int_max ->
    (length rest + 1 <= fuel)%nat ->
    search D word = None ->
    (length word <= length pre)%nat ->
    exists segs w,
      separate_loop fuel (pre ++ rest) D (len pre) word v = Ret (v ++ segs, w)
      /\ Forall (fun x => search D x = None) (segs ++ [w]).
Proof.
  induction rest as [|c rest IH]; intros pre word v fuel Hmax Hfuel Hword Hwp;
    (destruct fuel as [|fuel]; [lia|]); rewrite separate_loop_step;
    pose proof (len_nonneg pre) as Hpre.
  - rewrite app_nil_r in *.
    rewrite (to_size_t_small (len pre))
      by (unfold int_max, size_max in *; lia).
    destruct (Z.ltb_spec (len pre) (len pre)); [lia|].
    exists [], word. rewrite app_nil_r. split; [reflexivity|].
    constructor; [exact Hword|constructor].
  - rewrite len_app, len_cons in Hmax. pose proof (len_nonneg rest) as Hrest.
    rewrite (to_size_t_small (len pre))
      by (unfold int_max, size_max in *; lia).
    destruct (Z.ltb_spec (len pre) (len (pre ++ c :: rest)));
      [|rewrite len_app, len_cons in *; lia].
    unfold len at 1. rewrite Nat2Z.id, nth_error_length_app.
    assert (Hw' : len (word ++ [c]) <= int_max).
    { rewrite len_snoc. unfold len in *. lia. }
    rewrite (contains_search _ D Hw').
    rewrite (to_int_small (len pre + 1))
      by (unfold int_min, int_max in *; lia).
    rewrite (app_cons_assoc pre rest c), <- (len_snoc pre c).
    assert (Hmax' : len ((pre ++ [c]) ++ rest) <= int_max).
    { rewrite len_app, len_snoc. lia. }
    assert (Hfuel' : (length rest + 1 <= fuel)%nat) by (simpl in Hfuel; lia).
    destruct (search D (word ++ [c])) as [k|] eqn:E.
    + destruct (search_new_match_at_end D word c k Hword E) as [Hsplit Hk].
      pose proof (search_none_nonempty D word Hword) as HD.
      rewrite find_zero, E.
      set (seg := firstn k (word ++ [c])) in *.
      assert (Herase : erase (word ++ [c]) (Z.of_nat k) (len D) = Ret seg).
      { rewrite Hsplit, <- Hk. apply erase_suffix. }
      assert (Hseg : search D seg = None).
      { destruct (exists_last HD) as (D' & c' & HD').
        rewrite HD', app_assoc in Hsplit.
        apply app_inj_tail in Hsplit. destruct Hsplit as [Hw _].
        rewrite Hw in Hword. exact (search_none_prefix D seg D' Hword). }
      destruct (IH (pre ++ [c]) [] (v ++ [seg]) fuel Hmax' Hfuel'
                   (search_nil D HD)) as (segs & w & Hloop & Hclean);
        [simpl; lia|].
      exists (seg :: segs), w. rewrite Herase. unfold bind. rewrite Hloop.
      split; [rewrite <- app_assoc; reflexivity|].
      simpl. constructor; assumption.
    + destruct (IH (pre ++ [c]) (word ++ [c]) v fuel Hmax' Hfuel' E)
        as (segs & w & Hloop & Hclean);
        [rewrite !length_app; simpl; lia|].
      exists segs, w. rewrite Hloop. split; [reflexivity|exact Hclean].
Qed.

Lemma split_on_free (d : ascii) (s : str) :
  forall p, In p (split_on d s) -> ~ In d p.
Proof.
  induction s as [|c s IH]; simpl; intros p Hp.
  - destruct Hp as [<-|[]]. intros [].
  - destruct (Ascii.eqb_spec c d) as [->|Hc].
    + destruct Hp as [<-|Hp]; [intros []|apply IH; exact Hp].
    + destruct (split_on d s) as [|q qs] eqn:E.
      * destruct Hp as [<-|[]]. intros [H|[]]. congruence.
      * destruct Hp as [<-|Hp].
        -- intros [H|H]; [congruence|]. apply (IH q); [left; reflexivity|exact H].
        -- apply IH. right. exact Hp.
Qed.

Lemma drop_trailing_empty_in (v : list str) (p : str) :
  In p (drop_trailing_empty v) -> In p v.
Proof.
  induction v as [|x v IH]; [intros []|].
  destruct v as [|y v].
  - destruct x; simpl; auto.
  - rewrite drop_trailing_empty_cons by discriminate.
    intros [<-|H]; [left; reflexivity|right; apply IH; exact H].
Qed.

(** What the branch for one character returns, when it returns. *)
Lemma separate_single_returns (T : str) (d : ascii) (v : list str) :
  separate_single T d = Ret v -> v = drop_trailing_empty (split_on d T).
Proof.
  unfold separate_single. rewrite separate_getlines_pieces by lia.
  simpl app. unfold bind at 1.
  set (pieces := drop_trailing_empty (split_on d T)).
  destruct (rev pieces) as [|lastString before] eqn:E.
  - intros H. injection H as <-. reflexivity.
  - assert (Hin : In lastString pieces).
    { apply in_rev. rewrite E. left. reflexivity. }
    pose proof (split_on_free d T lastString
                  (drop_trailing_empty_in _ _ Hin)) as Hfree.
    unfold back. destruct (rev lastString) as [|c r] eqn:El; [discriminate|].
    unfold bind.
    destruct (Ascii.eqb_spec c d) as [->|Hc].
    + exfalso. apply Hfree. apply in_rev. rewrite El. left. reflexivity.
    + intros H. injection H as <-. reflexivity.
Qed.

Lemma remove_empty_in (v : list str) (p : str) :
  In p (remove_empty v) <-> In p v /\ p <> [].
Proof.
  unfold remove_empty. rewrite filter_In. unfold str_eqb.
  destruct (list_eq_dec ascii_dec p []); simpl; split; intros [H1 H2];
    split; auto; congruence.
Qed.

(** X6: no segment that [separate] returns for a non-empty separator
    contains the separator, and with [omitEmptyStrings] none is empty. *)
Theorem separate_segments_clean (T D : str) (omit : bool) (segs : list str) :
  D <> [] ->
  len T <= int_max ->
  separate T D omit = Ret segs ->
  Forall (fun seg => contains seg D = false) segs
  /\ (omit = true -> ~ In [] segs).
Proof.
  intros HD HT Hsep.
  assert (Hraw : exists v, Forall (fun x => search D x = None) v
                           /\ segs = if omit then remove_empty v else v).
  { unfold separate in Hsep. destruct D as [|d [|d' D']]; [congruence| |].
    - simpl in Hsep. destruct (separate_single T d) as [v| | |] eqn:E;
        try discriminate.
      simpl in Hsep. injection Hsep as <-. exists v. split; [|reflexivity].
      apply separate_single_returns in E. subst v.
      apply Forall_forall. intros p Hp. apply search_single_absent.
      exact (split_on_free d T p (drop_trailing_empty_in _ _ Hp)).
    - set (D := d :: d' :: D') in *.
      destruct (Z.eqb_spec (len D) 1) as [E|_];
        [unfold len, D in E; simpl length in E; lia|].
      unfold separate_multi in Hsep.
      destruct (separate_loop_clean D T [] [] [] (length T + 1))
        as (v & w & Hloop & Hclean);
        [exact HT|lia|exact (search_nil D HD)|simpl; lia|].
      change (len []) with 0 in Hloop. simpl app in Hloop.
      rewrite Hloop in Hsep. simpl in Hsep. injection Hsep as <-.
      exists (v ++ [w]). split; [exact Hclean|reflexivity]. }
  destruct Hraw as (v & Hclean & ->). rewrite Forall_forall in Hclean. split.
  - apply Forall_forall. intros p Hp. apply search_none_contains.
    apply Hclean. destruct omit; [apply remove_empty_in in Hp; apply Hp|exact Hp].
  - intros ->. intros Hin. apply remove_empty_in in Hin. destruct Hin as [_ H].
    congruence.
Qed.

Lemma separate_segments_clean_witness :
  (lit ", " <> [] /\ len (lit "a, , b") <= int_max
   /\ separate (lit "a, , b") (lit ", ") true = Ret [lit "a"; lit "b"])
  /\ Forall (fun seg => contains seg (lit ", ") = false) [lit "a"; lit "b"]
  /\ (true = true -> ~ In [] [lit "a"; lit "b"]).
Proof.
  split; [repeat split; discriminate|].
  apply (separate_segments_clean (lit "a, , b") (lit ", ") true);
    [discriminate|discriminate|reflexivity].
Defined.

Lemma line_count_pieces_bounded (n : nat) :
  forall b, (length b <= n)%nat ->
    line_count b
    = Z.of_nat (length (drop_trailing_empty (split_on newline b))).
Proof.
  induction n as [|n IH]; intros b Hb.
  - destruct b; [reflexivity|simpl in Hb; lia].
  - destruct (str_cases newline b) as [->|[(l & rest & -> & Hl)|[Hne Hl]]].
    + reflexivity.
    + rewrite (line_count_after_newline l rest Hl), (split_on_delim newline l rest Hl).
      rewrite drop_trailing_empty_cons by apply split_on_nonempty.
      rewrite IH by (rewrite length_app in Hb; simpl in Hb; lia).
      simpl length. lia.
    + rewrite (line_count_no_newline b Hne Hl), (split_on_end newline b Hl).
      destruct b; [congruence|reflexivity].
Qed.

(** X7: when [separate] returns for the newline separator with empty
    strings kept, it returns as many segments as [countLines] counts
    lines. *)
Theorem separate_newlines_countLines (T : str) (segs : list str) :
  len T <= int_max ->
  separate T [newline] false = Ret segs ->
  countLines T = Ret (Z.of_nat (length segs)).
Proof.
  intros HT Hsep. unfold separate in Hsep. simpl in Hsep.
  destruct (separate_single T newline) as [v| | |] eqn:E; try discriminate.
  simpl in Hsep. injection Hsep as <-.
  apply separate_single_returns in E. subst v.
  unfold countLines.
  rewrite (countLines_loop_counts (length T + 1) T [] 0) by lia.
  rewrite (line_count_pieces_bounded (length T) T) by lia. reflexivity.
Qed.

Lemma separate_newlines_countLines_witness :
  (len (lit "a" ++ [newline] ++ lit "b") <= int_max
   /\ separate (lit "a" ++ [newline] ++ lit "b") [newline] false
      = Ret [lit "a"; lit "b"])
  /\ countLines (lit "a" ++ [newline] ++ lit "b") = Ret 2.
Proof.
  split; [split; [discriminate|reflexivity]|].
  apply (separate_newlines_countLines (lit "a" ++ [newline] ++ lit "b")
           [lit "a"; lit "b"]); [discriminate|reflexivity].
Defined.

(** ** [isInteger] and [isNumber] *)

Lemma isInteger_loop_step fuel s charIndex :
  isInteger_loop (S fuel) s charIndex =
  if to_size_t charIndex <? len s then
    match nth_error s (Z.to_nat (to_size_t charIndex)) with
    | None => Undefined
    | Some c =>
        if (charIndex =? 0) && Ascii.eqb c "-" then
          isInteger_loop fuel s (to_int (charIndex + 1))
        else if negb (isdigit c) then Ret false
        else isInteger_loop fuel s (to_int (charIndex + 1))
    end
  else Ret true.
Proof. reflexivity. Qed.

Lemma isInteger_loop_scan (rest : str) :
  forall (pre : str) (fuel : nat),
    len (pre ++ rest) <= int_max ->
    (length rest + 1 <= fuel)%nat ->
    isInteger_loop fuel (pre ++ rest) (len pre)
    = Ret (forallb isdigit
             (if is_nil pre then snd (strip_minus rest) else rest)).
Proof.
  induction rest as [|c rest IH]; intros pre fuel Hmax Hfuel;
    (destruct fuel as [|fuel]; [lia|]); rewrite isInteger_loop_step;
    pose proof (len_nonneg pre) as Hpre.
  - rewrite app_nil_r in *.
    rewrite to_size_t_small by (unfold int_max, size_max in *; lia).
    destruct (Z.ltb_spec (len pre) (len pre)); [lia|].
    destruct (is_nil pre); reflexivity.
  - rewrite len_app, len_cons in Hmax. pose proof (len_nonneg rest).
    rewrite to_size_t_small by (unfold int_max, size_max in *; lia).
    destruct (Z.ltb_spec (len pre) (len (pre ++ c :: rest)));
      [|rewrite len_app, len_cons in *; lia].
    unfold len at 1. rewrite Nat2Z.id, nth_error_length_app.
    rewrite (to_int_small (len pre + 1))
      by (unfold int_min, int_max in *; lia).
    rewrite is_nil_len.
    rewrite (app_cons_assoc pre rest c), <- (len_snoc pre c).
    assert (Hmax' : len ((pre ++ [c]) ++ rest) <= int_max).
    { rewrite len_app, len_snoc. lia. }
    assert (Hfuel' : (length rest + 1 <= fuel)%nat) by (simpl in Hfuel; lia).
    rewrite !(IH (pre ++ [c]) fuel Hmax' Hfuel'), is_nil_snoc.
    destruct (is_nil pre); simpl.
    + destruct (Ascii.eqb c "-"); simpl; [reflexivity|].
      destruct (isdigit c); reflexivity.
    + destruct (isdigit c); reflexivity.
Qed.

Lemma strip_minus_eq (T : str) :
  T = (if fst (strip_minus T) then ["-"%char] else []) ++ snd (strip_minus T).
Proof.
  destruct T as [|c T]; [reflexivity|]. simpl.
  destruct (Ascii.eqb_spec c "-") as [->|]; reflexivity.
Qed.

Lemma strip_minus_signed (neg : bool) (ds : str) :
  ds <> [] -> forallb isdigit ds = true ->
  strip_minus ((if neg then ["-"%char] else []) ++ ds) = (neg, ds).
Proof.
  intros Hne Hds. destruct neg; [reflexivity|].
  destruct ds as [|c ds]; [congruence|]. simpl in *.
  destruct (Ascii.eqb_spec c "-") as [->|]; [discriminate|reflexivity].
Qed.

Lemma isInteger_unfold (T : str) :
  len T <= int_max ->
  isInteger T =
  Ret (let body := snd (strip_minus T) in
       forallb isdigit body && negb (is_nil body)
       && (int_min <=? signed_value (fst (strip_minus T)) body)
       && (signed_value (fst (strip_minus T)) body <=? int_max)).
Proof.
  intros HT. unfold isInteger.
  pose proof (isInteger_loop_scan T [] (length T + 1) HT) as Hloop.
  simpl app in Hloop. change (len []) with 0 in Hloop. simpl is_nil in Hloop.
  cbv iota in Hloop. rewrite Hloop by lia. unfold bind, from_chars_int.
  destruct (strip_minus T) as [neg body]. simpl fst. simpl snd. cbv zeta.
  destruct (forallb isdigit body) eqn:Hd; [|reflexivity].
  rewrite (span_digits_all body Hd). unfold signed_value.
  destruct body as [|c body]; [reflexivity|]. simpl is_nil. simpl negb.
  rewrite andb_true_l.
  destruct ((int_min <=? _) && (_ <=? int_max)); reflexivity.
Qed.

(** X8: [isInteger] returns [true] exactly for the texts ['-'? digit+] whose
    value is an [int]; a text without digit, or with a value that
    overflows, gives [false] and no error. *)
Theorem isInteger_accepts_literals (T : str) :
  len T <= int_max ->
  (exists b, isInteger T = Ret b)
  /\ (isInteger T = Ret true <->
      exists (neg : bool) (ds : str),
        T = (if neg then ["-"%char] else []) ++ ds
        /\ ds <> []
        /\ forallb isdigit ds = true
        /\ int_min <= signed_value neg ds <= int_max).
Proof.
  intros HT. rewrite (isInteger_unfold T HT). split; [eexists; reflexivity|].
  split.
  - intros H. injection H as H.
    apply andb_true_iff in H. destruct H as [H Hmax].
    apply andb_true_iff in H. destruct H as [H Hmin].
    apply andb_true_iff in H. destruct H as [Hd Hne].
    exists (fst (strip_minus T)), (snd (strip_minus T)).
    split; [apply strip_minus_eq|]. split.
    + intros E. rewrite E in Hne. discriminate.
    + split; [exact Hd|]. apply Z.leb_le in Hmin. apply Z.leb_le in Hmax. lia.
  - intros (neg & ds & -> & Hne & Hd & Hmin & Hmax).
    rewrite (strip_minus_signed neg ds Hne Hd). simpl fst. simpl snd.
    cbv zeta. rewrite Hd.
    destruct ds; [congruence|]. simpl is_nil. simpl negb.
    apply Z.leb_le in Hmin. apply Z.leb_le in Hmax.
    rewrite Hmin, Hmax. reflexivity.
Qed.

Lemma isInteger_accepts_literals_witness :
  len (lit "-2147483648") <= int_max
  /\ isInteger (lit "-2147483648") = Ret true.
Proof.
  assert (H : len (lit "-2147483648") <= int_max) by discriminate.
  split; [exact H|].
  apply (isInteger_accepts_literals (lit "-2147483648") H).
  exists true, (lit "2147483648").
  split; [reflexivity|]. split; [discriminate|]. split; [reflexivity|].
  split; discriminate.
Defined.

Lemma scan_chars_digits (point : ascii) (ds : str) :
  isdigit point = false -> forallb isdigit ds = true ->
  scan_chars point false ds false = Some false.
Proof.
  intros Hp. induction ds as [|c ds IH]; intros Hd; [reflexivity|].
  simpl in *. apply andb_true_iff in Hd. destruct Hd as [Hc Hd].
  destruct (Ascii.eqb_spec c point) as [->|]; [congruence|].
  rewrite Hc. simpl. apply IH. exact Hd.
Qed.

Lemma isFloat_unfold (in_range : decimal -> bool) (point : ascii) (T : str) :
  len T <= int_max ->
  isFloat in_range point T =
  match scan_chars point true T false with
  | Some true =>
      match from_chars_double in_range T with
      | errc_none => Ret true
      | _ => Ret false
      end
  | _ => Ret false
  end.
Proof.
  intros HT. unfold isFloat.
  pose proof (isFloat_loop_scan point T [] false (length T + 1) HT) as Hloop.
  simpl app in Hloop. change (len []) with 0 in Hloop. simpl is_nil in Hloop.
  rewrite Hloop by lia. unfold bind.
  destruct (scan_chars point true T false) as [[|]|]; reflexivity.
Qed.

(** X9: when the decimal point of the locale is no digit, no text is both an
    integer and a float for the library; [isNumber], which calls [isFloat]
    only after [isInteger] has failed, is [true] exactly when one of the two
    is. *)
Theorem isNumber_integer_or_float (in_range : decimal -> bool) (point : ascii)
  (T : str) :
  isdigit point = false ->
  len T <= int_max ->
  (isInteger T = Ret true -> isFloat in_range point T = Ret false)
  /\ (isNumber in_range point T = Ret true <->
      isInteger T = Ret true \/ isFloat in_range point T = Ret true).
Proof.
  intros Hp HT. split.
  - rewrite (isInteger_unfold T HT), (isFloat_unfold in_range point T HT).
    intros H. injection H as H.
    apply andb_true_iff in H. destruct H as [H _].
    apply andb_true_iff in H. destruct H as [H _].
    apply andb_true_iff in H. destruct H as [Hd _].
    rewrite scan_chars_first, (scan_chars_digits point _ Hp Hd). reflexivity.
  - assert (Hb : exists b, isInteger T = Ret b)
      by (rewrite (isInteger_unfold T HT); eexists; reflexivity).
    destruct Hb as [b Hb]. unfold isNumber. rewrite Hb. unfold bind.
    destruct b.
    + split; [intros _; left; reflexivity|reflexivity].
    + split; [intros H; right; exact H|].
      intros [H|H]; [discriminate|exact H].
Qed.

Lemma isNumber_integer_or_float_witness :
  (isdigit "." = false /\ len (lit "-1.5") <= int_max)
  /\ isNumber binary64_finite "." (lit "-1.5") = Ret true.
Proof.
  split; [split; [reflexivity|discriminate]|].
  apply (isNumber_integer_or_float binary64_finite "." (lit "-1.5"));
    [reflexivity|discriminate|]. right. reflexivity.
Defined.

(** ** [string_to_bool] and [bool_to_string] *)

Lemma plain_char_facts (c : ascii) :
  isdigit c || Ascii.eqb c "." = true ->
  toupper c = c /\ isspace_C c = false
  /\ Ascii.eqb c "-" = false /\ Ascii.eqb c "+" = false
  /\ Ascii.eqb c "T" = false.
Proof.
  destruct c as [[] [] [] [] [] [] [] []]; vm_compute; intros H;
    try discriminate H; repeat split.
Qed.

Lemma toUpper_digits (ds : str) :
  forallb isdigit ds = true -> toUpper ds = ds.
Proof.
  induction ds as [|c ds IH]; intros H; [reflexivity|]. simpl in *.
  apply andb_true_iff in H. destruct H as [Hc Hd].
  destruct (plain_char_facts c) as (-> & _); [rewrite Hc; reflexivity|].
  rewrite (IH Hd). reflexivity.
Qed.

Lemma str_eqb_head (c : ascii) (s t : str) (x : ascii) :
  Ascii.eqb c x = false -> str_eqb (c :: s) (x :: t) = false.
Proof.
  intros H. unfold str_eqb.
  destruct (list_eq_dec ascii_dec (c :: s) (x :: t)) as [E|]; [|reflexivity].
  injection E as -> _. rewrite Ascii.eqb_refl in H. discriminate.
Qed.

(** [std::stoi] on a sign followed by digits or by a point. *)
Lemma stoi_signed (neg : bool) (body : str) :
  (body = [] \/ exists c body', body = c :: body'
                                /\ isdigit c || Ascii.eqb c "." = true) ->
  stoi ((if neg then ["-"%char] else []) ++ body)
  = match fst (span_digits body) with
    | [] => Throw invalid_argument
    | _ :: _ =>
        let value := signed_value neg (fst (span_digits body)) in
        if (int_min <=? value) && (value <=? int_max) then Ret value
        else Throw out_of_range
    end.
Proof.
  intros Hbody. unfold stoi.
  assert (Hs : strip_sign (skip_spaces ((if neg then ["-"%char] else []) ++ body))
               = (neg, body)).
  { destruct neg; [reflexivity|].
    destruct Hbody as [->|(c & body' & -> & Hc)]; [reflexivity|].
    destruct (plain_char_facts c Hc) as (_ & Hsp & Hm & Hp & _).
    simpl. rewrite Hsp. simpl. rewrite Hm, Hp. reflexivity. }
  rewrite Hs. destruct (span_digits body) as [ds r]. simpl fst.
  destruct ds; reflexivity.
Qed.

Lemma scan_chars_cons point first c rest seen :
  scan_chars point first (c :: rest) seen =
  if first && Ascii.eqb c "-" then scan_chars point false rest seen
  else if negb seen && Ascii.eqb c point then scan_chars point false rest true
  else if negb (isdigit c) then None
  else scan_chars point false rest seen.
Proof. reflexivity. Qed.

(** X10: [string_to_bool] undoes [bool_to_string], whatever the locale; the
    argument is left in upper case. *)
Theorem string_to_bool_of_bool_to_string (in_range : decimal -> bool)
  (point : ascii) (b : bool) :
  string_to_bool in_range point (bool_to_string b)
  = (toUpper (bool_to_string b), Ret b).
Proof.
  destruct b; [reflexivity|].
  assert (Hf : isFloat in_range point (lit "FALSE") = Ret false).
  { rewrite isFloat_unfold by discriminate.
    change (lit "FALSE") with ("F"%char :: lit "ALSE").
    rewrite scan_chars_cons.
    change (true && Ascii.eqb "F" "-") with false. cbv iota.
    change (negb false) with true. rewrite andb_true_l.
    destruct (Ascii.eqb "F" point); [rewrite scan_chars_seen|]; reflexivity. }
  unfold string_to_bool.
  change (toUpper (bool_to_string false)) with (lit "FALSE").
  change (str_eqb (lit "FALSE") (lit "TRUE")) with false. cbv iota.
  unfold isNumber.
  change (isInteger (lit "FALSE")) with (@Ret bool false).
  unfold bind at 2. cbv iota. rewrite Hf. reflexivity.
Qed.

(** X11: on an integer literal that [isInteger] accepts, [string_to_bool]
    tells whether the value is not zero, and leaves its argument as it
    was. *)
Theorem string_to_bool_integer (in_range : decimal -> bool) (point : ascii)
  (neg : bool) (ds : str) :
  ds <> [] ->
  forallb isdigit ds = true ->
  int_min <= signed_value neg ds <= int_max ->
  len ((if neg then ["-"%char] else []) ++ ds) <= int_max ->
  string_to_bool in_range point ((if neg then ["-"%char] else []) ++ ds)
  = ((if neg then ["-"%char] else []) ++ ds,
     Ret (negb (signed_value neg ds =? 0))).
Proof.
  intros Hne Hd [Hmin Hmax] HT.
  set (T := (if neg then ["-"%char] else []) ++ ds) in *.
  assert (Hup : toUpper T = T).
  { unfold T, toUpper. rewrite map_app. fold (toUpper ds).
    rewrite (toUpper_digits ds Hd). destruct neg; reflexivity. }
  assert (Htrue : str_eqb T (lit "TRUE") = false).
  { unfold T. destruct neg; [reflexivity|].
    destruct ds as [|c ds']; [congruence|]. simpl in Hd.
    apply andb_true_iff in Hd. destruct Hd as [Hc _].
    destruct (plain_char_facts c) as (_ & _ & _ & _ & HcT);
      [rewrite Hc; reflexivity|].
    apply str_eqb_head. exact HcT. }
  assert (Hint : isInteger T = Ret true).
  { rewrite (isInteger_unfold T HT). unfold T.
    rewrite (strip_minus_signed neg ds Hne Hd). simpl fst. simpl snd. cbv zeta.
    rewrite Hd. destruct ds; [congruence|]. simpl is_nil. simpl negb.
    apply Z.leb_le in Hmin. apply Z.leb_le in Hmax.
    rewrite Hmin, Hmax. reflexivity. }
  assert (Hstoi : stoi T = Ret (signed_value neg ds)).
  { unfold T. rewrite stoi_signed.
    - rewrite (span_digits_all ds Hd). simpl fst.
      destruct ds; [congruence|]. cbv zeta.
      apply Z.leb_le in Hmin. apply Z.leb_le in Hmax.
      rewrite Hmin, Hmax. reflexivity.
    - right. destruct ds as [|c ds']; [congruence|].
      exists c, ds'. split; [reflexivity|]. simpl in Hd.
      apply andb_true_iff in Hd. destruct Hd as [Hc _]. rewrite Hc. reflexivity. }
  unfold string_to_bool. rewrite Hup, Htrue. unfold isNumber.
  rewrite Hint. unfold bind. rewrite Hstoi. reflexivity.
Qed.

Lemma string_to_bool_integer_witness :
  (lit "9001" <> [] /\ forallb isdigit (lit "9001") = true
   /\ int_min <= signed_value false (lit "9001") <= int_max
   /\ len (lit "9001") <= int_max)
  /\ string_to_bool binary64_finite "." (lit "9001") = (lit "9001", Ret true)
  /\ string_to_bool binary64_finite "." (lit "-0") = (lit "-0", Ret false).
Proof.
  split; [repeat split; discriminate|]. split.
  - apply (string_to_bool_integer binary64_finite "." false (lit "9001"));
      [discriminate|reflexivity|split; discriminate|discriminate].
  - apply (string_to_bool_integer binary64_finite "." true (lit "0"));
      [discriminate|reflexivity|split; discriminate|discriminate].
Defined.

Lemma forallb_isdigit_point (ip fp : str) :
  forallb isdigit (ip ++ "."%char :: fp) = false.
Proof.
  rewrite forallb_app. simpl. apply andb_false_r.
Qed.

(** X12: on a float literal that [isFloat] accepts, [string_to_bool] reads
    the digits before the point only: it throws [std::invalid_argument]
    when there is none, as for [".5"], [std::out_of_range] when they are no
    [int], and otherwise tells whether they are not zero. *)
Theorem string_to_bool_float (in_range : decimal -> bool) (T : str)
  (d : decimal) :
  float_literal "." T d ->
  integer_digits d ++ fraction_digits d <> [] ->
  in_range d = true ->
  len T <= int_max ->
  string_to_bool in_range "." T
  = (T,
     match integer_digits d with
     | [] => Throw invalid_argument
     | _ :: _ =>
         let value := signed_value (negative d) (integer_digits d) in
         if (int_min <=? value) && (value <=? int_max)
         then Ret (negb (value =? 0))
         else Throw out_of_range
     end).
Proof.
  intros Hlit Hdigits Hrange HT.
  pose proof (strip_minus_literal T d Hlit) as Hstrip.
  pose proof (strip_minus_eq T) as HTeq. rewrite Hstrip in HTeq.
  simpl fst in HTeq. simpl snd in HTeq.
  assert (Hip : forallb isdigit (integer_digits d) = true)
    by (destruct Hlit as (sg & _ & _ & H & _); exact H).
  assert (Hfp : forallb isdigit (fraction_digits d) = true)
    by (destruct Hlit as (sg & _ & _ & _ & H); exact H).
  set (ip := integer_digits d) in *. set (fp := fraction_digits d) in *.
  set (body := ip ++ "."%char :: fp) in *.
  assert (Hbody : exists c body', body = c :: body'
                                  /\ isdigit c || Ascii.eqb c "." = true).
  { unfold body. destruct ip as [|c ip'].
    - exists "."%char, fp. split; reflexivity.
    - exists c, (ip' ++ "."%char :: fp). split; [reflexivity|].
      simpl in Hip. apply andb_true_iff in Hip. destruct Hip as [Hc _].
      rewrite Hc. reflexivity. }
  assert (Hup : toUpper T = T).
  { assert (H : toUpper ((if negative d then ["-"%char] else []) ++ body)
                = (if negative d then ["-"%char] else []) ++ body).
    { unfold toUpper, body. rewrite !map_app. simpl map.
      fold (toUpper ip). fold (toUpper fp).
      rewrite (toUpper_digits ip Hip), (toUpper_digits fp Hfp).
      destruct (negative d); reflexivity. }
    rewrite <- HTeq in H. exact H. }
  assert (Htrue : str_eqb T (lit "TRUE") = false).
  { rewrite HTeq. destruct (negative d); [reflexivity|].
    destruct Hbody as (c & body' & -> & Hc).
    destruct (plain_char_facts c Hc) as (_ & _ & _ & _ & HcT).
    apply str_eqb_head. exact HcT. }
  assert (Hint : isInteger T = Ret false).
  { rewrite (isInteger_unfold T HT), Hstrip. simpl snd. cbv zeta.
    unfold body at 1. rewrite forallb_isdigit_point. reflexivity. }
  assert (Hfloat : isFloat in_range "." T = Ret true).
  { rewrite (isFloat_unfold in_range "." T HT).
    rewrite (proj2 (scan_chars_literal T) (ex_intro _ d Hlit)).
    rewrite (from_chars_double_literal in_range T d Hlit). fold ip fp.
    destruct (ip ++ fp); [congruence|]. rewrite Hrange. reflexivity. }
  assert (Hstoi : stoi T
                  = match ip with
                    | [] => Throw invalid_argument
                    | _ :: _ =>
                        let value := signed_value (negative d) ip in
                        if (int_min <=? value) && (value <=? int_max)
                        then Ret value else Throw out_of_range
                    end).
  { rewrite HTeq. rewrite stoi_signed by (right; exact Hbody).
    unfold body. rewrite (span_digits_stop ip fp "." Hip eq_refl). reflexivity. }
  unfold string_to_bool. rewrite Hup, Htrue. unfold isNumber.
  rewrite Hint. unfold bind at 2. cbv iota. rewrite Hfloat.
  unfold bind at 2. cbv iota. rewrite Hstoi.
  destruct ip; [reflexivity|]. cbv zeta.
  destruct ((int_min <=? _) && (_ <=? int_max)); reflexivity.
Qed.

Lemma string_to_bool_float_witness :
  (float_literal "." (lit ".5") (mk_decimal false [] (lit "5"))
   /\ binary64_finite (mk_decimal false [] (lit "5")) = true
   /\ len (lit ".5") <= int_max)
  /\ string_to_bool binary64_finite "." (lit ".5")
     = (lit ".5", Throw invalid_argument)
  /\ string_to_bool binary64_finite "." (lit "0.1") = (lit "0.1", Ret false).
Proof.
  assert (H5 : float_literal "." (lit ".5") (mk_decimal false [] (lit "5"))).
  { exists []. split; [reflexivity|]. split; [left; split; reflexivity|].
    split; reflexivity. }
  assert (H01 : float_literal "." (lit "0.1")
                  (mk_decimal false (lit "0") (lit "1"))).
  { exists []. split; [reflexivity|]. split; [left; split; reflexivity|].
    split; reflexivity. }
  split; [split; [exact H5|split; [reflexivity|discriminate]]|]. split.
  - apply (string_to_bool_float binary64_finite (lit ".5") _ H5);
      [discriminate|reflexivity|discriminate].
  - apply (string_to_bool_float binary64_finite (lit "0.1") _ H01);
      [discriminate|reflexivity|discriminate].
Defined.

(** ** [removeWhitespace], [getWhitespaceString] and [trimWhitespace] *)

(** X13: [removeWhitespace] leaves no whitespace character, does not touch a
    text that holds none, and so gives the same result when applied
    twice. *)
Theorem removeWhitespace_idempotent (isspace : ascii -> bool) (s : str) :
  forallb (fun c => negb (isspace c)) (removeWhitespace isspace s) = true
  /\ (forallb (fun c => negb (isspace c)) s = true ->
      removeWhitespace isspace s = s)
  /\ removeWhitespace isspace (removeWhitespace isspace s)
     = removeWhitespace isspace s.
Proof.
  assert (Hclean : forall t,
            forallb (fun c => negb (isspace c)) (removeWhitespace isspace t) = true).
  { induction t as [|c t IH]; [reflexivity|]. simpl.
    destruct (isspace c) eqn:E; simpl; [exact IH|]. rewrite E. exact IH. }
  assert (Hfix : forall t, forallb (fun c => negb (isspace c)) t = true ->
                           removeWhitespace isspace t = t).
  { induction t as [|c t IH]; intros H; [reflexivity|]. simpl in *.
    apply andb_true_iff in H. destruct H as [Hc Ht].
    rewrite Hc, (IH Ht). reflexivity. }
  split; [apply Hclean|]. split; [apply Hfix|]. apply Hfix, Hclean.
Qed.

Lemma getWhitespaceString_loop_step isspace fuel ch whitespace :
  getWhitespaceString_loop isspace (S fuel) ch whitespace =
  if ch <? char_max then
    getWhitespaceString_loop isspace fuel (ch + 1)
      (if isspace (char_of ch) then whitespace ++ [char_of ch] else whitespace)
  else Ret whitespace.
Proof. reflexivity. Qed.

Lemma chars_from_S (ch : Z) (n : nat) :
  chars_from ch (S n) = char_of ch :: chars_from (ch + 1) n.
Proof.
  unfold chars_from. simpl seq. simpl map. rewrite Z.add_0_r. f_equal.
  rewrite <- seq_shift, map_map. apply map_ext. intros i. f_equal. lia.
Qed.

Lemma getWhitespaceString_loop_filter (isspace : ascii -> bool) (n : nat) :
  forall (ch : Z) (acc : str) (fuel : nat),
    ch + Z.of_nat n = char_max ->
    (n + 1 <= fuel)%nat ->
    getWhitespaceString_loop isspace fuel ch acc
    = Ret (acc ++ filter isspace (chars_from ch n)).
Proof.
  induction n as [|n IH]; intros ch acc fuel Hch Hfuel;
    (destruct fuel as [|fuel]; [lia|]); rewrite getWhitespaceString_loop_step.
  - destruct (Z.ltb_spec ch char_max); [lia|].
    simpl. rewrite app_nil_r. reflexivity.
  - destruct (Z.ltb_spec ch char_max); [|lia].
    rewrite IH by lia. rewrite chars_from_S. simpl filter.
    destruct (isspace (char_of ch)); [rewrite <- app_assoc|]; reflexivity.
Qed.

Lemma chars_from_all (c : ascii) : In c (chars_from char_min 256).
Proof.
  assert (H : existsb (Ascii.eqb c) (chars_from char_min 256) = true)
    by (destruct c as [[] [] [] [] [] [] [] []]; vm_compute; reflexivity).
  apply existsb_exists in H. destruct H as (x & Hx & E).
  apply Ascii.eqb_eq in E. subst x. exact Hx.
Qed.

Lemma chars_from_NoDup : NoDup (chars_from char_min 256).
Proof.
  apply (NoDup_count_occ ascii_dec). intros c.
  destruct c as [[] [] [] [] [] [] [] []]; vm_compute; apply le_n.
Qed.

Lemma chars_from_snoc (ch : Z) (n : nat) :
  chars_from ch (S n) = chars_from ch n ++ [char_of (ch + Z.of_nat n)].
Proof.
  unfold chars_from. rewrite seq_S, map_app. reflexivity.
Qed.

Lemma getWhitespaceString_filter (isspace : ascii -> bool) :
  getWhitespaceString isspace
  = Ret (filter isspace (chars_from char_min 256)).
Proof.
  unfold getWhitespaceString.
  rewrite (getWhitespaceString_loop_filter isspace 255 char_min [] 256);
    [|reflexivity|lia].
  unfold bind. rewrite app_nil_l.
  rewrite (chars_from_snoc char_min 255), filter_app.
  change (char_min + Z.of_nat 255) with char_max.
  change (filter isspace [char_of char_max])
    with (if isspace (char_of char_max) then [char_of char_max] else []).
  destruct (isspace (char_of char_max)); [|rewrite app_nil_r]; reflexivity.
Qed.

(** X14: [getWhitespaceString] returns every character that the locale
    classifies as whitespace, each once, and no other character; the last
    value of [char], which the loop leaves out, is included. *)
Theorem getWhitespaceString_complete (isspace : ascii -> bool) :
  exists whitespace,
    getWhitespaceString isspace = Ret whitespace
    /\ NoDup whitespace
    /\ forall c, In c whitespace <-> isspace c = true.
Proof.
  exists (filter isspace (chars_from char_min 256)).
  split; [apply getWhitespaceString_filter|]. split.
  - apply NoDup_filter, chars_from_NoDup.
  - intros c. rewrite filter_In. split; [intros [_ H]; exact H|].
    intros H. split; [apply chars_from_all|exact H].
Qed.

Lemma first_not_of_none (set s : str) :
  first_not_of set s = None ->
  forallb (fun c => mem_char c set) s = true.
Proof.
  induction s as [|c s IH]; simpl; intros H; [reflexivity|].
  destruct (mem_char c set); [|discriminate]. simpl. apply IH.
  destruct (first_not_of set s); [discriminate|reflexivity].
Qed.

Lemma first_not_of_some (set s : str) :
  forall i, first_not_of set s = Some i ->
    exists a x t, s = a ++ x :: t /\ length a = i
                  /\ forallb (fun c => mem_char c set) a = true
                  /\ mem_char x set = false.
Proof.
  induction s as [|c s IH]; simpl; intros i H; [discriminate|].
  destruct (mem_char c set) eqn:E.
  - destruct (first_not_of set s) as [j|]; [|discriminate].
    injection H as <-. destruct (IH j eq_refl) as (a & x & t & -> & <- & Ha & Hx).
    exists (c :: a), x, t. simpl. rewrite E, Ha. auto.
  - injection H as <-. exists [], c, s. auto.
Qed.

Lemma last_not_of_none (set s : str) :
  last_not_of set s = None ->
  forallb (fun c => mem_char c set) s = true.
Proof.
  induction s as [|c s IH]; simpl; intros H; [reflexivity|].
  destruct (last_not_of set s); [discriminate|].
  destruct (mem_char c set); [|discriminate]. simpl. apply IH. reflexivity.
Qed.

Lemma last_not_of_some (set s : str) :
  forall k, last_not_of set s = Some k ->
    exists r y b, s = r ++ y :: b /\ length r = k
                  /\ mem_char y set = false
                  /\ forallb (fun c => mem_char c set) b = true.
Proof.
  induction s as [|c s IH]; simpl; intros k H; [discriminate|].
  destruct (last_not_of set s) as [j|] eqn:E.
  - injection H as <-. destruct (IH j eq_refl) as (r & y & b & -> & <- & Hy & Hb).
    exists (c :: r), y, b. auto.
  - destruct (mem_char c set) eqn:Ec; [discriminate|]. injection H as <-.
    exists [], c, s. split; [reflexivity|]. split; [reflexivity|].
    split; [exact Ec|]. apply last_not_of_none. exact E.
Qed.

Lemma last_not_of_app (set a s : str) :
  forallb (fun c => mem_char c set) a = true ->
  last_not_of set (a ++ s)
  = option_map (fun k => (length a + k)%nat) (last_not_of set s).
Proof.
  induction a as [|c a IH]; intros H.
  - simpl. destruct (last_not_of set s); reflexivity.
  - simpl in H. apply andb_true_iff in H. destruct H as [Hc Ha]. simpl.
    rewrite (IH Ha). destruct (last_not_of set s); simpl; [reflexivity|].
    rewrite Hc. reflexivity.
Qed.

Lemma mem_char_in (c : ascii) (set : str) :
  mem_char c set = true <-> In c set.
Proof.
  unfold mem_char. rewrite existsb_exists. split.
  - intros (x & Hx & E). apply Ascii.eqb_eq in E. subst x. exact Hx.
  - intros H. exists c. split; [exact H|apply Ascii.eqb_refl].
Qed.

Lemma mem_whitespace (isspace : ascii -> bool) (c : ascii) :
  mem_char c (filter isspace (chars_from char_min 256)) = isspace c.
Proof.
  destruct (isspace c) eqn:E.
  - apply mem_char_in, filter_In. split; [apply chars_from_all|exact E].
  - destruct (mem_char c _) eqn:M; [|reflexivity].
    apply mem_char_in, filter_In in M. destruct M as [_ M]. congruence.
Qed.

(** X15: [trimWhitespace] returns the text without the whitespace at its
    two ends, and nothing else is removed: what it returns neither starts
    nor ends with whitespace, and a text of whitespace only comes back
    empty. *)
Theorem trimWhitespace_trims (isspace : ascii -> bool) (T : str) :
  len T <= int_max ->
  exists a R b,
    T = a ++ R ++ b
    /\ trimWhitespace isspace T = Ret R
    /\ forallb isspace a = true
    /\ forallb isspace b = true
    /\ (forall c R', R = c :: R' -> isspace c = false)
    /\ (forall R' c, R = R' ++ [c] -> isspace c = false).
Proof.
  intros HT.
  pose proof (mem_whitespace isspace) as Hmem.
  pose proof (getWhitespaceString_filter isspace) as Hget.
  remember (filter isspace (chars_from char_min 256)) as w eqn:Heqw.
  clear Heqw.
  assert (Hw : forall s, forallb (fun c => mem_char c w) s = forallb isspace s).
  { intros s. induction s as [|c s IH]; [reflexivity|]. simpl.
    rewrite Hmem, IH. reflexivity. }
  assert (Hcalc : trimWhitespace isspace T
                  = if find_first_not_of T w =? npos then Ret []
                    else substr T (find_first_not_of T w)
                           (to_size_t
                              (to_size_t (find_last_not_of T w
                                          - find_first_not_of T w) + 1))).
  { unfold trimWhitespace. rewrite Hget. reflexivity. }
  unfold find_first_not_of, find_last_not_of in Hcalc.
  destruct (first_not_of w T) as [i|] eqn:Ef.
  - destruct (first_not_of_some w T i Ef) as (a & x & t & HTeq & Hi & Ha & Hx).
    assert (Hl : last_not_of w (x :: t) <> None).
    { intros E. apply last_not_of_none in E.
      pose proof (proj1 (forallb_forall _ _) E x (or_introl eq_refl)) as Ex.
      simpl in Ex. congruence. }
    destruct (last_not_of w (x :: t)) as [k|] eqn:El; [|congruence].
    destruct (last_not_of_some w (x :: t) k El) as (r & y & b & Hxt & Hk & Hy & Hb).
    assert (Hlast : last_not_of w T = Some (length a + k)%nat).
    { rewrite HTeq, (last_not_of_app w a (x :: t) Ha), El. reflexivity. }
    assert (HT3 : T = a ++ (r ++ [y]) ++ b).
    { rewrite HTeq, Hxt, <- app_assoc. reflexivity. }
    assert (Hlen : len T = Z.of_nat i + (Z.of_nat k + 1 + len b)).
    { rewrite HTeq, Hxt, len_app, len_app, len_cons. unfold len. lia. }
    pose proof (len_nonneg b) as Hbn. unfold int_max in HT.
    rewrite Hlast, Nat2Z.inj_add, Hi in Hcalc.
    destruct (Z.eqb_spec (Z.of_nat i) npos) as [E|_];
      [unfold npos, size_max in E; lia|].
    replace (Z.of_nat i + Z.of_nat k - Z.of_nat i) with (Z.of_nat k)
      in Hcalc by lia.
    rewrite (to_size_t_small (Z.of_nat k)) in Hcalc by (unfold size_max; lia).
    rewrite (to_size_t_small (Z.of_nat k + 1)) in Hcalc
      by (unfold size_max; lia).
    unfold substr in Hcalc.
    destruct (Z.ltb_spec (len T) (Z.of_nat i)); [lia|].
    exists a, (r ++ [y]), b.
    split; [exact HT3|]. split.
    + rewrite Hcalc. f_equal. rewrite HT3 at 1.
      rewrite Nat2Z.id, <- Hi, skipn_length_app.
      replace (Z.to_nat (Z.of_nat k + 1)) with (length (r ++ [y]))
        by (rewrite length_app; simpl; lia).
      rewrite firstn_app, Nat.sub_diag, firstn_all. simpl. apply app_nil_r.
    + split; [rewrite <- Hw; exact Ha|]. split; [rewrite <- Hw; exact Hb|].
      split.
      * intros c R' HR. assert (c = x) as ->.
        { change (r ++ y :: b) with (r ++ [y] ++ b) in Hxt.
          rewrite app_assoc, HR in Hxt. simpl in Hxt. congruence. }
        rewrite Hmem in Hx. exact Hx.
      * intros R' c HR. apply app_inj_tail in HR. destruct HR as [_ <-].
        rewrite Hmem in Hy. exact Hy.
  - rewrite Z.eqb_refl in Hcalc. exists T, [], []. rewrite app_nil_r.
    split; [reflexivity|]. split; [exact Hcalc|].
    split; [rewrite <- Hw; apply first_not_of_none; exact Ef|].
    split; [reflexivity|]. split.
    + intros c R' H. discriminate.
    + intros R' c H. destruct R'; discriminate.
Qed.

Lemma trimWhitespace_trims_witness :
  len (lit "  ab c ") <= int_max
  /\ exists a R b,
       lit "  ab c " = a ++ R ++ b
       /\ trimWhitespace isspace_C (lit "  ab c ") = Ret R
       /\ forallb isspace_C a = true
       /\ forallb isspace_C b = true
       /\ (forall c R', R = c :: R' -> isspace_C c = false)
       /\ (forall R' c, R = R' ++ [c] -> isspace_C c = false).
Proof.
  split; [discriminate|].
  apply (trimWhitespace_trims isspace_C (lit "  ab c ")). discriminate.
Defined.

(** ** [circularIndex] and [eraseCharsFromEnd] *)

(** X16: for an index that is not negative, [circularIndex] goes around
    the text: the character at an offset is also returned for that offset
    plus any number of lengths of the text. *)
Theorem circularIndex_wraps (pre post : str) (c : ascii) (k : Z) :
  0 <= k ->
  len pre + k * len (pre ++ c :: post) <= int_max ->
  circularIndex (pre ++ c :: post) (len pre + k * len (pre ++ c :: post))
  = Ret c.
Proof.
  intros Hk Hmax. unfold circularIndex.
  set (s := pre ++ c :: post) in *.
  assert (Hs : len s = len pre + (len post + 1))
    by (unfold s; rewrite len_app, len_cons; reflexivity).
  pose proof (len_nonneg pre) as Hpre. pose proof (len_nonneg post) as Hpost.
  destruct (Z.eqb_spec (len s) 0); [lia|].
  assert (0 <= k * len s) by (apply Z.mul_nonneg_nonneg; lia).
  rewrite to_size_t_small by (unfold int_max, size_max in *; lia).
  rewrite Z.mod_add by lia. rewrite Z.mod_small by lia.
  unfold len at 1. rewrite Nat2Z.id. unfold s.
  rewrite nth_error_length_app. reflexivity.
Qed.

Lemma circularIndex_wraps_witness :
  (0 <= 1 /\ len (lit "H") + 1 * len (lit "Hello world!") <= int_max)
  /\ circularIndex (lit "Hello world!") 13 = Ret "e"%char.
Proof.
  split; [split; discriminate|].
  apply (circularIndex_wraps (lit "H") (lit "llo world!") "e" 1); discriminate.
Defined.

(** X17: on a text that is not empty, [eraseCharsFromEnd] removes the last
    [n] characters when [0 <= n <= length], and throws [std::out_of_range]
    for any other [n], negative ones included. *)
Theorem eraseCharsFromEnd_bounds (s : str) (n : Z) :
  s <> [] ->
  len s <= int_max ->
  int_min <= n <= int_max ->
  eraseCharsFromEnd s n
  = if (0 <=? n) && (n <=? len s)
    then Ret (firstn (Z.to_nat (len s - n)) s)
    else Throw out_of_range.
Proof.
  intros Hne Hs Hn. unfold eraseCharsFromEnd.
  destruct s as [|c s']; [congruence|]. set (s := c :: s') in *.
  pose proof (len_nonneg s) as H0. unfold int_min, int_max in *.
  destruct (Z.leb_spec 0 n) as [Hpos|Hneg]; simpl andb.
  - rewrite (to_size_t_small n) by (unfold size_max; lia).
    destruct (Z.leb_spec n (len s)) as [Hle|Hgt].
    + rewrite (to_size_t_small (len s - n)) by (unfold size_max; lia).
      destruct (Z.ltb_spec (len s) (len s - n)); [lia|reflexivity].
    + assert (E : to_size_t (len s - n) = 2 ^ 64 + (len s - n)).
      { unfold to_size_t.
        replace (len s - n) with (2 ^ 64 + (len s - n) + (-1) * 2 ^ 64) at 1
          by lia.
        rewrite Z.mod_add by lia. apply Z.mod_small. lia. }
      rewrite E. destruct (Z.ltb_spec (len s) (2 ^ 64 + (len s - n)));
        [reflexivity|lia].
  - assert (En : to_size_t n = 2 ^ 64 + n).
    { unfold to_size_t.
      replace n with (2 ^ 64 + n + (-1) * 2 ^ 64) at 1 by lia.
      rewrite Z.mod_add by lia. apply Z.mod_small. lia. }
    rewrite En.
    assert (E : to_size_t (len s - (2 ^ 64 + n)) = len s - n).
    { unfold to_size_t.
      replace (len s - (2 ^ 64 + n)) with (len s - n + (-1) * 2 ^ 64) by lia.
      rewrite Z.mod_add by lia. apply Z.mod_small. lia. }
    rewrite E. destruct (Z.ltb_spec (len s) (len s - n)); [reflexivity|lia].
Qed.

Lemma eraseCharsFromEnd_bounds_witness :
  (lit "abcdef" <> [] /\ len (lit "abcdef") <= int_max
   /\ int_min <= 2 <= int_max)
  /\ eraseCharsFromEnd (lit "abcdef") 2 = Ret (lit "abcd")
  /\ eraseCharsFromEnd (lit "abc") 4 = Throw out_of_range.
Proof.
  split; [repeat split; discriminate|]. split.
  - apply (eraseCharsFromEnd_bounds (lit "abcdef") 2);
      [discriminate|discriminate|split; discriminate].
  - apply (eraseCharsFromEnd_bounds (lit "abc") 4);
      [discriminate|discriminate|split; discriminate].
Defined.

(** ** [reverse] and [isPalindrome] *)

Lemma list_ind_ends (P : str -> Prop) :
  P [] ->
  (forall x, P [x]) ->
  (forall x mid y, P mid -> P (x :: mid ++ [y])) ->
  forall s, P s.
Proof.
  intros Hnil Hone Hends.
  assert (H : forall n s, (length s <= n)%nat -> P s).
  { induction n as [|n IH]; intros s Hs.
    - destruct s; [exact Hnil|simpl in Hs; lia].
    - destruct s as [|x s]; [exact Hnil|].
      destruct s as [|x' s'] eqn:Es; [apply Hone|]. rewrite <- Es in *.
      destruct (exists_last (l:=s)) as (mid & y & ->); [subst s; discriminate|].
      apply Hends. apply IH. simpl in Hs. rewrite length_app in Hs.
      simpl in Hs. lia. }
  intros s. apply (H (length s)). lia.
Qed.

Lemma std_equal_app (a b c : str) :
  (length a <= length b)%nat -> std_equal a (b ++ c) = std_equal a b.
Proof.
  revert b. induction a as [|x a IH]; intros b H; [destruct b; reflexivity|].
  destruct b as [|y b]; [simpl in H; lia|]. simpl.
  rewrite IH by (simpl in H; lia). reflexivity.
Qed.

Lemma half_length (s : str) :
  Z.to_nat (len s / 2) = (length s / 2)%nat.
Proof.
  unfold len. change 2 with (Z.of_nat 2).
  rewrite <- Nat2Z.inj_div. apply Nat2Z.id.
Qed.

Lemma isPalindrome_ends (x y : ascii) (mid : str) :
  isPalindrome (x :: mid ++ [y]) = Ascii.eqb x y && isPalindrome mid.
Proof.
  unfold isPalindrome. rewrite !half_length.
  assert (Hlen : (length (x :: mid ++ [y]) / 2 = S (length mid / 2))%nat).
  { simpl length. rewrite length_app. simpl length.
    replace (S (length mid + 1)) with (length mid + 1 * 2)%nat by lia.
    rewrite Nat.div_add by lia. lia. }
  assert (Hh : (length mid / 2 <= length mid)%nat)
    by (apply Nat.Div0.div_le_upper_bound; lia).
  rewrite Hlen. set (h := (length mid / 2)%nat) in *.
  change (firstn (S h) (x :: mid ++ [y])) with (x :: firstn h (mid ++ [y])).
  change (rev (x :: mid ++ [y])) with (rev (mid ++ [y]) ++ [x]).
  rewrite rev_app_distr.
  change ((rev [y] ++ rev mid) ++ [x]) with (y :: (rev mid ++ [x])).
  change (std_equal (x :: firstn h (mid ++ [y])) (y :: (rev mid ++ [x])))
    with (Ascii.eqb x y && std_equal (firstn h (mid ++ [y])) (rev mid ++ [x])).
  f_equal. rewrite firstn_app.
  replace (h - length mid)%nat with 0%nat by lia.
  change (firstn 0 [y]) with (@nil ascii). rewrite app_nil_r.
  apply std_equal_app. rewrite firstn_length_le, length_rev; lia.
Qed.

(** X18: [isPalindrome], which compares the first half of the text with
    the text read backwards, is [true] exactly when [reverse] gives the text
    back. *)
Theorem isPalindrome_iff_reverse (s : str) :
  isPalindrome s = true <-> reverse s = s.
Proof.
  unfold reverse. induction s as [|x|x mid y IH] using list_ind_ends.
  - split; reflexivity.
  - split; reflexivity.
  - rewrite isPalindrome_ends, andb_true_iff, IH, Ascii.eqb_eq.
    simpl rev. rewrite rev_app_distr. simpl app. split.
    + intros [-> ->]. reflexivity.
    + intros H. injection H as -> H. apply app_inj_tail in H.
      destruct H as [H _]. split; [reflexivity|exact H].
Qed.

(** ** [wrapToWidth] *)

Lemma wrap_line_step fuel wrapWidth line output :
  wrap_line (S fuel) wrapWidth line output =
  if to_size_t wrapWidth <? len line then
    let lineCutOffIndex := to_int (rfind line [space] (to_size_t wrapWidth)) in
    if to_size_t lineCutOffIndex =? npos then
      head <- substr line 0 (to_size_t wrapWidth) ;;
      line' <- substr_from line (to_size_t (to_int (wrapWidth + 1))) ;;
      wrap_line fuel wrapWidth line' (output ++ head ++ [newline])
    else
      head <- substr line 0 (to_size_t lineCutOffIndex) ;;
      line' <- substr_from line (to_size_t (to_int (lineCutOffIndex + 1))) ;;
      wrap_line fuel wrapWidth line' (output ++ head ++ [newline])
  else Ret (output ++ line, line).
Proof. reflexivity. Qed.

Lemma wrap_lines_step fuel input line wrapWidth numberOfLines currLineNum output :
  wrap_lines (S fuel) input line wrapWidth numberOfLines currLineNum output =
  let '(input', line', ok) := getline input line newline in
  if ok then
    r <- wrap_line (length line' + 1) wrapWidth line' output ;;
    let (output', rest) := r in
    let currLineNum' := to_int (currLineNum + 1) in
    let output'' :=
      if (currLineNum' <? numberOfLines)
         || ((len rest =? 0) && (numberOfLines =? 1))
      then output' ++ [newline] else output' in
    wrap_lines fuel input' rest wrapWidth numberOfLines currLineNum' output''
  else Ret output.
Proof. reflexivity. Qed.

Lemma line_count_bounds_bounded (n : nat) :
  forall b, (length b <= n)%nat ->
    0 <= line_count b <= len b /\ (b <> [] -> 1 <= line_count b).
Proof.
  induction n as [|n IH]; intros b Hb.
  - destruct b; [|simpl in Hb; lia]. split; [split; discriminate|congruence].
  - destruct (str_cases newline b) as [->|[(l & rest & -> & Hl)|[Hne Hl]]].
    + split; [split; discriminate|congruence].
    + rewrite (line_count_after_newline l rest Hl), len_app, len_cons.
      destruct (IH rest) as [Hr _];
        [rewrite length_app in Hb; simpl in Hb; lia|].
      pose proof (len_nonneg l). lia.
    + rewrite (line_count_no_newline b Hne Hl).
      assert (1 <= len b) by (destruct b; [congruence|rewrite len_cons;
                                pose proof (len_nonneg b); lia]).
      lia.
Qed.

Lemma line_count_bounds (b : str) :
  0 <= line_count b <= len b /\ (b <> [] -> 1 <= line_count b).
Proof. apply (line_count_bounds_bounded (length b)). lia. Qed.

Lemma wrap_line_fits (fuel : nat) (w : Z) (line output : str) :
  len line <= to_size_t w ->
  wrap_line (S fuel) w line output = Ret (output ++ line, line).
Proof.
  intros H. rewrite wrap_line_step.
  destruct (Z.ltb_spec (to_size_t w) (len line)); [lia|reflexivity].
Qed.

Lemma split_on_delim_forall (P : str -> Prop) (l rest : str) :
  ~ In newline l ->
  Forall P (split_on newline (l ++ newline :: rest)) ->
  P l /\ Forall P (split_on newline rest).
Proof.
  intros Hl H. rewrite (split_on_delim newline l rest Hl) in H.
  inversion H; subst. split; assumption.
Qed.

Lemma ends_with_char_after (d : ascii) (l rest : str) :
  ends_with_char d (l ++ d :: rest) = false ->
  rest <> [] /\ ends_with_char d rest = false.
Proof.
  unfold ends_with_char. rewrite rev_app_distr. simpl rev.
  destruct (rev rest) as [|c r] eqn:E.
  - simpl. rewrite Ascii.eqb_refl. discriminate.
  - simpl. intros H. split; [|exact H].
    intros ->. discriminate.
Qed.

(** A text whose lines all fit goes through the outer loop unchanged. *)
Lemma wrap_lines_fitting (w n : Z) (fuel : nat) :
  forall (b line out : str) (cur : Z),
    (length b + 1 <= fuel)%nat ->
    Forall (fun l => len l <= to_size_t w) (split_on newline b) ->
    ends_with_char newline b = false ->
    0 <= cur -> n = cur + line_count b -> n <= int_max ->
    wrap_lines fuel (open_stream b) line w n cur out = Ret (out ++ b).
Proof.
  induction fuel as [|fuel IH]; intros b line out cur Hfuel Hfit Hend Hcur Hn Hmax;
    [lia|].
  rewrite wrap_lines_step.
  destruct (str_cases newline b) as [->|[(l & rest & -> & Hl)|[Hne Hl]]].
  - rewrite getline_empty, app_nil_r. reflexivity.
  - rewrite (getline_delim newline l rest line Hl).
    destruct (split_on_delim_forall _ l rest Hl Hfit) as [Hfl Hfrest].
    destruct (ends_with_char_after newline l rest Hend) as [Hrne Hrend].
    replace (length l + 1)%nat with (S (length l)) by lia.
    rewrite (wrap_line_fits _ w l out Hfl). unfold bind.
    rewrite (line_count_after_newline l rest Hl) in Hn.
    destruct (line_count_bounds rest) as [[Hr0 _] Hr1]. specialize (Hr1 Hrne).
    rewrite to_int_small by (unfold int_min, int_max in *; lia).
    destruct (Z.ltb_spec (cur + 1) n); [|lia]. simpl orb. cbv iota.
    rewrite IH; try assumption; try lia.
    + rewrite <- !app_assoc. reflexivity.
    + rewrite length_app in Hfuel. simpl in Hfuel. lia.
  - rewrite (getline_end newline b line Hne Hl).
    assert (Hfb : len b <= to_size_t w).
    { rewrite (split_on_end newline b Hl) in Hfit. inversion Hfit; assumption. }
    replace (length b + 1)%nat with (S (length b)) by lia.
    rewrite (wrap_line_fits _ w b out Hfb). unfold bind.
    rewrite (line_count_no_newline b Hne Hl) in Hn.
    rewrite to_int_small by (unfold int_min, int_max in *; lia).
    destruct (Z.ltb_spec (cur + 1) n); [lia|].
    assert (Hlb : (len b =? 0) = false).
    { apply Z.eqb_neq. destruct b; [congruence|]. rewrite len_cons.
      pose proof (len_nonneg b). lia. }
    rewrite Hlb. simpl orb. cbv iota.
    destruct fuel as [|fuel]; [destruct b; [congruence|simpl in Hfuel; lia]|].
    rewrite wrap_lines_step, getline_after_eof. reflexivity.
Qed.

(** X20: a text whose lines are not longer than the width, and that does
    not end with a newline, comes back unchanged.  The width is compared as
    a [size_t], so this is the case of every such text when the width is
    negative. *)
Theorem wrapToWidth_fitting_text_unchanged (T : str) (w : Z) :
  len T <= int_max ->
  Forall (fun l => len l <= to_size_t w) (split_on newline T) ->
  ends_with_char newline T = false ->
  wrapToWidth T w = Ret T.
Proof.
  intros HT Hfit Hend. unfold wrapToWidth, countLines.
  rewrite (countLines_loop_counts (length T + 1) T [] 0) by lia.
  unfold bind. destruct (line_count_bounds T) as [[H0 H1] _].
  rewrite (wrap_lines_fitting w (0 + line_count T) (length T + 1) T [] [] 0);
    try assumption; try lia. reflexivity.
Qed.

Lemma wrapToWidth_fitting_text_unchanged_witness :
  (len (lit "ab" ++ [newline] ++ lit "cde") <= int_max
   /\ ends_with_char newline (lit "ab" ++ [newline] ++ lit "cde") = false)
  /\ wrapToWidth (lit "ab" ++ [newline] ++ lit "cde") 3
     = Ret (lit "ab" ++ [newline] ++ lit "cde")
  /\ wrapToWidth (lit "ab" ++ [newline] ++ lit "cde") (-7)
     = Ret (lit "ab" ++ [newline] ++ lit "cde").
Proof.
  split; [split; [discriminate|reflexivity]|]. split.
  - apply (wrapToWidth_fitting_text_unchanged (lit "ab" ++ [newline] ++ lit "cde") 3);
      [discriminate| |reflexivity].
    repeat constructor; discriminate.
  - apply (wrapToWidth_fitting_text_unchanged (lit "ab" ++ [newline] ++ lit "cde") (-7));
      [discriminate| |reflexivity].
    repeat constructor; discriminate.
Defined.

Lemma rsearch_unfold (sub s : str) (k : nat) :
  rsearch sub s k =
  if is_prefix sub (skipn k s) then Some k
  else match k with
       | O => None
       | S k' => rsearch sub s k'
       end.
Proof. destruct k; reflexivity. Qed.

Lemma rsearch_le (sub s : str) :
  forall k p, rsearch sub s k = Some p -> (p <= k)%nat.
Proof.
  induction k as [|k IH]; intros p H; rewrite rsearch_unfold in H.
  - destruct (is_prefix sub (skipn 0 s)); [|discriminate].
    injection H as <-. lia.
  - destruct (is_prefix sub (skipn (S k) s)).
    + injection H as <-. lia.
    + specialize (IH p H). lia.
Qed.

Lemma rfind_space_cases (line : str) (w : Z) :
  0 <= w < len line ->
  rfind line [space] w = npos
  \/ exists p, rfind line [space] w = Z.of_nat p /\ Z.of_nat p <= w.
Proof.
  intros Hw. unfold rfind. change (len [space]) with 1.
  destruct (Z.ltb_spec (len line) 1); [lia|].
  destruct (rsearch [space] line (Z.to_nat (Z.min w (len line - 1))))
    as [p|] eqn:E; [right|left; reflexivity].
  exists p. split; [reflexivity|]. apply rsearch_le in E. lia.
Qed.

Lemma not_in_firstn (d : ascii) (n : nat) (l : str) :
  ~ In d l -> ~ In d (firstn n l).
Proof.
  intros H Hin. apply H. rewrite <- (firstn_skipn n l).
  apply in_or_app. left. exact Hin.
Qed.

Lemma not_in_skipn (d : ascii) (n : nat) (l : str) :
  ~ In d l -> ~ In d (skipn n l).
Proof.
  intros H Hin. apply H. rewrite <- (firstn_skipn n l).
  apply in_or_app. right. exact Hin.
Qed.

Lemma split_on_app_free (d : ascii) (h : str) :
  ~ In d h ->
  forall a,
    split_on d (a ++ h)
    = removelast (split_on d a) ++ [last (split_on d a) [] ++ h].
Proof.
  intros Hh. induction a as [|c a IH].
  - simpl. apply split_on_end. exact Hh.
  - simpl app. simpl split_on. rewrite IH.
    pose proof (split_on_nonempty d a) as Hne.
    destruct (Ascii.eqb c d).
    + destruct (split_on d a) as [|p ps]; [congruence|reflexivity].
    + destruct (split_on d a) as [|p [|q ps]]; [congruence| |]; reflexivity.
Qed.

Lemma split_on_closed_append (d : ascii) (out h : str) (ps : list str) :
  split_on d out = ps ++ [[]] -> ~ In d h ->
  split_on d (out ++ h) = ps ++ [h].
Proof.
  intros Hc Hh. rewrite (split_on_app_free d h Hh), Hc.
  rewrite removelast_last, last_last. reflexivity.
Qed.

Lemma lines_closed_head (w : Z) (out h : str) (ps : list str) :
  split_on newline out = ps ++ [[]] ->
  Forall (fun l => len l <= w) ps ->
  ~ In newline h -> len h <= w ->
  exists ps',
    split_on newline (out ++ h ++ [newline]) = ps' ++ [[]]
    /\ Forall (fun l => len l <= w) ps'.
Proof.
  intros Hc Hps Hh Hlen. exists (ps ++ [h]). split.
  - rewrite app_assoc, split_on_snoc_delim.
    rewrite (split_on_closed_append newline out h ps Hc Hh). reflexivity.
  - apply Forall_app. split; [exact Hps|]. constructor; [exact Hlen|constructor].
Qed.

(** The inner loop, started on a line without newline and after a complete
    line of output, ends, and leaves no output line longer than the
    width. *)
Lemma wrap_line_lines (w : Z) (fuel : nat) :
  0 <= w <= int_max ->
  forall (line out : str) (ps : list str),
    len line <= int_max ->
    (length line + 1 <= fuel)%nat ->
    ~ In newline line ->
    split_on newline out = ps ++ [[]] ->
    Forall (fun l => len l <= w) ps ->
    exists out' rest,
      wrap_line fuel w line out = Ret (out', rest)
      /\ Forall (fun l => len l <= w) (split_on newline out').
Proof.
  intros Hw. induction fuel as [|fuel IH];
    intros line out ps Hline Hfuel Hfree Hc Hps; [lia|].
  rewrite wrap_line_step. unfold int_max in *.
  rewrite (to_size_t_small w) by (unfold size_max; lia).
  destruct (Z.ltb_spec w (len line)) as [Hlong|Hshort].
  - assert (Hcut : forall h, 0 <= h <= w ->
              exists out' rest,
                (head <- substr line 0 h ;;
                 line' <- substr_from line (to_size_t (to_int (h + 1))) ;;
                 wrap_line fuel w line' (out ++ head ++ [newline]))
                = Ret (out', rest)
                /\ Forall (fun l => len l <= w) (split_on newline out')).
    { intros h Hh.
      rewrite (to_int_small (h + 1)) by (unfold int_min, int_max; lia).
      rewrite (to_size_t_small (h + 1)) by (unfold size_max; lia).
      unfold substr, substr_from. pose proof (len_nonneg line).
      destruct (Z.ltb_spec (len line) 0); [lia|].
      destruct (Z.ltb_spec (len line) (h + 1)); [lia|].
      unfold bind. simpl skipn at 1.
      set (head := firstn (Z.to_nat h) line).
      assert (Hhead : len head <= w).
      { unfold head, len. rewrite firstn_length_le by (unfold len in *; lia).
        lia. }
      destruct (lines_closed_head w out head ps Hc Hps
                  (not_in_firstn newline _ line Hfree) Hhead)
        as (ps' & Hc' & Hps').
      apply (IH (skipn (Z.to_nat (h + 1)) line) _ ps').
      - unfold len. rewrite length_skipn. unfold len in Hline. lia.
      - rewrite length_skipn. unfold len in *. lia.
      - apply not_in_skipn. exact Hfree.
      - exact Hc'.
      - exact Hps'. }
    cbv zeta.
    destruct (rfind_space_cases line w) as [E|(p & E & Hp)]; [lia| |].
    + rewrite E. change (to_int npos) with (-1).
      change (to_size_t (-1) =? npos) with true. cbv iota.
      apply Hcut. lia.
    + rewrite E.
      rewrite (to_int_small (Z.of_nat p)) by (unfold int_min, int_max; lia).
      rewrite (to_size_t_small (Z.of_nat p)) by (unfold size_max; lia).
      destruct (Z.eqb_spec (Z.of_nat p) npos) as [En|_];
        [unfold npos, size_max in En; lia|].
      apply Hcut. lia.
  - exists (out ++ line), line. split; [reflexivity|].
    rewrite (split_on_closed_append newline out line ps Hc Hfree).
    apply Forall_app. split; [exact Hps|]. constructor; [exact Hshort|constructor].
Qed.

Lemma lines_after_newline (w : Z) (out : str) :
  Forall (fun l => len l <= w) (split_on newline out) ->
  exists ps, split_on newline (out ++ [newline]) = ps ++ [[]]
             /\ Forall (fun l => len l <= w) ps.
Proof.
  intros H. exists (split_on newline out).
  split; [apply split_on_snoc_delim|exact H].
Qed.

Lemma lines_maybe_newline (w : Z) (out : str) (b : bool) :
  0 <= w ->
  Forall (fun l => len l <= w) (split_on newline out) ->
  Forall (fun l => len l <= w)
         (split_on newline (if b then out ++ [newline] else out)).
Proof.
  intros Hw H. destruct b; [|exact H].
  rewrite split_on_snoc_delim. apply Forall_app. split; [exact H|].
  constructor; [exact Hw|constructor].
Qed.

Lemma wrap_lines_lines (w n : Z) (fuel : nat) :
  0 <= w <= int_max ->
  forall (b line out : str) (ps : list str) (cur : Z),
    (length b + 1 <= fuel)%nat ->
    len b <= int_max ->
    split_on newline out = ps ++ [[]] ->
    Forall (fun l => len l <= w) ps ->
    0 <= cur -> n = cur + line_count b -> n <= int_max ->
    exists out',
      wrap_lines fuel (open_stream b) line w n cur out = Ret out'
      /\ Forall (fun l => len l <= w) (split_on newline out').
Proof.
  intros Hw. induction fuel as [|fuel IH];
    intros b line out ps cur Hfuel Hb Hc Hps Hcur Hn Hmax; [lia|].
  rewrite wrap_lines_step.
  destruct (str_cases newline b) as [->|[(l & rest & -> & Hl)|[Hne Hl]]].
  - rewrite getline_empty. exists out. split; [reflexivity|].
    rewrite Hc. apply Forall_app. split; [exact Hps|].
    constructor; [apply Hw|constructor].
  - rewrite (getline_delim newline l rest line Hl).
    rewrite len_app, len_cons in Hb.
    pose proof (len_nonneg l) as Hl0. pose proof (len_nonneg rest) as Hr0.
    destruct (wrap_line_lines w (length l + 1) Hw l out ps)
      as (out1 & r1 & Hwrap & Hout1); try assumption; try lia.
    rewrite Hwrap. unfold bind.
    rewrite (line_count_after_newline l rest Hl) in Hn.
    destruct (line_count_bounds rest) as [[Hc0 Hc1] Hpos].
    rewrite to_int_small by (unfold int_min, int_max in *; lia).
    rewrite length_app in Hfuel. simpl in Hfuel.
    destruct rest as [|c rest'] eqn:Er.
    + destruct fuel as [|fuel]; [lia|].
      rewrite wrap_lines_step, getline_empty.
      eexists. split; [reflexivity|].
      apply lines_maybe_newline; [apply Hw|exact Hout1].
    + rewrite <- Er in *. assert (Hrne : rest <> []) by (rewrite Er; discriminate).
      specialize (Hpos Hrne).
      destruct (Z.ltb_spec (cur + 1) n); [|lia]. simpl orb. cbv iota.
      destruct (lines_after_newline w out1 Hout1) as (ps' & Hc' & Hps').
      apply (IH rest r1 (out1 ++ [newline]) ps' (cur + 1));
        try assumption; try lia.
  - rewrite (getline_end newline b line Hne Hl).
    destruct (wrap_line_lines w (length b + 1) Hw b out ps)
      as (out1 & r1 & Hwrap & Hout1); try assumption; try lia.
    rewrite Hwrap. unfold bind.
    rewrite (line_count_no_newline b Hne Hl) in Hn.
    rewrite to_int_small by (unfold int_min, int_max in *; lia).
    destruct fuel as [|fuel]; [destruct b; [congruence|simpl in Hfuel; lia]|].
    rewrite wrap_lines_step, getline_after_eof.
    eexists. split; [reflexivity|].
    apply lines_maybe_newline; [apply Hw|exact Hout1].
Qed.

(** X19: for a width from 0 up, [wrapToWidth] returns, and no line of what
    it returns is longer than the width. *)
Theorem wrapToWidth_lines_within_width (T : str) (w : Z) :
  0 <= w <= int_max ->
  len T <= int_max ->
  exists out,
    wrapToWidth T w = Ret out
    /\ Forall (fun l => len l <= w) (split_on newline out).
Proof.
  intros Hw HT. unfold wrapToWidth, countLines.
  rewrite (countLines_loop_counts (length T + 1) T [] 0) by lia.
  unfold bind. destruct (line_count_bounds T) as [[H0 H1] _].
  apply (wrap_lines_lines w (0 + line_count T) (length T + 1) Hw T [] [] [] 0);
    try reflexivity; try assumption; try lia. constructor.
Qed.

Lemma wrapToWidth_lines_within_width_witness :
  (0 <= 7 <= int_max /\ len (lit "hello world foo") <= int_max)
  /\ exists out,
       wrapToWidth (lit "hello world foo") 7 = Ret out
       /\ Forall (fun l => len l <= 7) (split_on newline out).
Proof.
  split; [repeat split; discriminate|].
  apply (wrapToWidth_lines_within_width (lit "hello world foo") 7);
    [split; discriminate|discriminate].
Defined.

(** ** [mapifyString] *)

Lemma join_with_char_cons (d : ascii) (x : str) (v : list str) :
  v <> [] -> join_with [d] (x :: v) = x ++ d :: join_with [d] v.
Proof. apply join_with_cons. Qed.

Lemma removeWhitespace_clean (isspace : ascii -> bool) (t : str) :
  forallb (fun c => negb (isspace c)) t = true -> removeWhitespace isspace t = t.
Proof.
  induction t as [|c t IH]; intros H; [reflexivity|]. simpl in *.
  apply andb_true_iff in H. destruct H as [Hc Ht].
  rewrite Hc, (IH Ht). reflexivity.
Qed.

Lemma split_on_join (d : ascii) (pieces : list str) :
  pieces <> [] ->
  Forall (fun p => ~ In d p) pieces ->
  split_on d (join_with [d] pieces) = pieces.
Proof.
  induction pieces as [|x pieces IH]; intros Hne Hfree; [congruence|].
  inversion Hfree as [|? ? Hx Hrest]; subst.
  destruct pieces as [|y pieces].
  - simpl. apply split_on_end. exact Hx.
  - rewrite join_with_char_cons by discriminate.
    rewrite (split_on_delim d x _ Hx), IH; [reflexivity|discriminate|exact Hrest].
Qed.

Lemma ends_with_char_app (d : ascii) (a b : str) :
  b <> [] -> ends_with_char d (a ++ b) = ends_with_char d b.
Proof.
  intros Hb. unfold ends_with_char. rewrite rev_app_distr.
  destruct (rev b) as [|c r] eqn:E; [|reflexivity].
  apply (f_equal (@rev ascii)) in E. rewrite rev_involutive in E.
  simpl in E. congruence.
Qed.

Lemma join_with_open (d : ascii) (pieces : list str) :
  pieces <> [] ->
  Forall (fun p => p <> [] /\ ~ In d p) pieces ->
  join_with [d] pieces <> [] /\ ends_with_char d (join_with [d] pieces) = false.
Proof.
  induction pieces as [|x pieces IH]; intros Hne Hall; [congruence|].
  inversion Hall as [|? ? [Hx Hfree] Hrest]; subst.
  destruct pieces as [|y pieces].
  - simpl. split; [exact Hx|apply ends_with_char_absent; exact Hfree].
  - rewrite join_with_char_cons by discriminate.
    destruct IH as [Hj Hend]; [discriminate|exact Hrest|]. split.
    + destruct x; [congruence|discriminate].
    + rewrite app_cons_assoc, ends_with_char_app; assumption.
Qed.

Lemma remove_empty_id (v : list str) :
  Forall (fun p => p <> []) v -> remove_empty v = v.
Proof.
  induction 1 as [|x v Hx Hv IH]; [reflexivity|].
  unfold remove_empty in *. simpl. rewrite IH.
  destruct x; [congruence|reflexivity].
Qed.

(** [separate] on the pieces of a text joined by a one-character
    separator. *)
Lemma separate_joined (d : ascii) (pieces : list str) :
  Forall (fun p => p <> [] /\ ~ In d p) pieces ->
  separate (join_with [d] pieces) [d] true = Ret pieces.
Proof.
  intros Hall. destruct (list_eq_dec (list_eq_dec ascii_dec) pieces [])
    as [->|Hne]; [reflexivity|].
  destruct (join_with_open d pieces Hne Hall) as [Hj Hend].
  unfold separate. simpl (len [d] =? 1). cbv iota.
  rewrite (separate_single_segments _ d Hj Hend). unfold bind.
  rewrite split_on_join.
  - rewrite remove_empty_id; [reflexivity|].
    apply (Forall_impl _ (fun p H => proj1 H) Hall).
  - exact Hne.
  - apply (Forall_impl _ (fun p H => proj2 H) Hall).
Qed.

(** [separate] on a key and a value written with a one-character
    separator; the value may be empty. *)
Lemma separate_written_pair (d : ascii) (key value : str) :
  key <> [] -> ~ In d key -> ~ In d value ->
  separate (write_pair [d] (key, value)) [d] true
  = Ret (if is_nil value then [key] else [key; value]).
Proof.
  intros Hk Hkd Hvd. unfold write_pair. simpl fst. simpl snd.
  destruct value as [|c value'] eqn:Ev.
  - destruct (exists_last Hk) as (k' & x & ->).
    assert (Hx : x <> d).
    { intros ->. apply Hkd. apply in_or_app. right. left. reflexivity. }
    rewrite <- app_assoc. simpl app.
    unfold separate. simpl (len [d] =? 1). cbv iota.
    rewrite (separate_single_after_other k' d x Hx). unfold bind.
    rewrite (split_on_end d _ Hkd). simpl is_nil. cbv iota.
    rewrite remove_empty_id; [reflexivity|].
    constructor; [destruct k'; discriminate|constructor].
  - rewrite <- Ev in *. assert (Hv : value <> []) by (rewrite Ev; discriminate).
    replace (is_nil value) with false by (rewrite Ev; reflexivity).
    simpl app.
    assert (HT : key ++ d :: value <> []) by (destruct key; discriminate).
    assert (Hend : ends_with_char d (key ++ d :: value) = false).
    { rewrite app_cons_assoc, ends_with_char_app by exact Hv.
      apply ends_with_char_absent. exact Hvd. }
    unfold separate. simpl (len [d] =? 1). cbv iota.
    rewrite (separate_single_segments _ d HT Hend). unfold bind.
    rewrite (split_on_delim d key value Hkd), (split_on_end d value Hvd).
    rewrite remove_empty_id; [reflexivity|].
    constructor; [exact Hk|]. constructor; [exact Hv|constructor].
Qed.

Lemma mapifyString_loop_step fuel keysAndValues keyValueSeparator i m :
  mapifyString_loop (S fuel) keysAndValues keyValueSeparator i m =
  if to_size_t i <? Z.of_nat (length keysAndValues) then
    match nth_error keysAndValues (Z.to_nat (to_size_t i)) with
    | None => Undefined
    | Some entry =>
        keyAndValue <- separate entry keyValueSeparator true ;;
        match keyAndValue with
        | [] =>
            mapifyString_loop fuel keysAndValues keyValueSeparator
                              (to_int (i + 1)) m
        | [key] =>
            mapifyString_loop fuel keysAndValues keyValueSeparator
                              (to_int (i + 1)) (map_assign key [] m)
        | key :: value :: _ =>
            mapifyString_loop fuel keysAndValues keyValueSeparator
                              (to_int (i + 1)) (map_assign key value m)
        end
    end
  else Ret m.
Proof. reflexivity. Qed.

Lemma mapifyString_loop_pairs (d : ascii) (rest : list (str * str)) :
  forall (pre : list (str * str)) (m : list (str * str)) (fuel : nat),
    Z.of_nat (length (pre ++ rest)) <= int_max ->
    (length rest + 1 <= fuel)%nat ->
    Forall (fun e => fst e <> [] /\ ~ In d (fst e) /\ ~ In d (snd e)) rest ->
    mapifyString_loop fuel (map (write_pair [d]) (pre ++ rest)) [d]
                      (Z.of_nat (length pre)) m
    = Ret (fold_left (fun acc e => map_assign (fst e) (snd e) acc) rest m).
Proof.
  induction rest as [|e rest IH]; intros pre m fuel Hmax Hfuel Hall;
    (destruct fuel as [|fuel]; [lia|]); rewrite mapifyString_loop_step;
    rewrite length_map; rewrite length_app in Hmax; rewrite length_app;
    unfold int_max in Hmax;
    rewrite to_size_t_small by (unfold size_max; lia).
  - simpl length. destruct (Z.ltb_spec (Z.of_nat (length pre))
                              (Z.of_nat (length pre + 0))); [lia|reflexivity].
  - simpl length in *.
    destruct (Z.ltb_spec (Z.of_nat (length pre))
                (Z.of_nat (length pre + S (length rest)))); [|lia].
    rewrite Nat2Z.id, map_app. simpl map.
    rewrite <- (length_map (write_pair [d]) pre), nth_error_length_app.
    rewrite length_map.
    inversion Hall as [|? ? (Hk & Hkd & Hvd) Hrest]; subst.
    destruct e as [key value]. simpl fst in *. simpl snd in *.
    rewrite (separate_written_pair d key value Hk Hkd Hvd). unfold bind.
    rewrite to_int_small by (unfold int_min, int_max; lia).
    assert (Hnext : mapifyString_loop fuel
                      (map (write_pair [d]) pre
                       ++ write_pair [d] (key, value) :: map (write_pair [d]) rest)
                      [d] (Z.of_nat (length pre) + 1) (map_assign key value m)
                    = Ret (fold_left
                             (fun acc e => map_assign (fst e) (snd e) acc)
                             rest (map_assign key value m))).
    { pose proof (IH (pre ++ [(key, value)]) (map_assign key value m) fuel) as H'.
      rewrite <- app_assoc, map_app in H'. simpl in H'.
      rewrite !length_app in H'. simpl length in H'.
      replace (Z.of_nat (length pre + 1)) with (Z.of_nat (length pre) + 1)
        in H' by lia.
      apply H'; [unfold int_max; lia|lia|exact Hrest]. }
    destruct value; simpl is_nil; cbv iota; exact Hnext.
Qed.

(** X21: [mapifyString] reads back a text in which keys and values are
    written with one-character separators: when the keys are not empty and
    neither keys nor values hold a separator or, if whitespace is ignored,
    whitespace, the map is the one obtained by assigning the pairs in their
    order, so that the last value of a repeated key wins; a value may be
    empty. *)
Theorem mapifyString_reads_pairs (isspace : ascii -> bool) (d1 d2 : ascii)
  (pairs : list (str * str)) (ignoreWhitespace : bool) :
  d1 <> d2 ->
  Forall (fun e => fst e <> [] /\ ~ In d1 (fst e) /\ ~ In d1 (snd e)
                   /\ ~ In d2 (fst e) /\ ~ In d2 (snd e)) pairs ->
  (ignoreWhitespace = true ->
   forallb (fun c => negb (isspace c))
           (join_with [d2] (map (write_pair [d1]) pairs)) = true) ->
  Z.of_nat (length pairs) <= int_max ->
  mapifyString isspace (join_with [d2] (map (write_pair [d1]) pairs))
               [d1] [d2] ignoreWhitespace
  = Ret (fold_left (fun m e => map_assign (fst e) (snd e) m) pairs []).
Proof.
  intros Hd Hall Hws Hlen. unfold mapifyString.
  set (text := join_with [d2] (map (write_pair [d1]) pairs)) in *.
  assert (Htext : (if ignoreWhitespace then removeWhitespace isspace text
                   else text) = text).
  { destruct ignoreWhitespace; [|reflexivity].
    apply (removeWhitespace_clean isspace text (Hws eq_refl)). }
  rewrite Htext. unfold text.
  rewrite separate_joined.
  - unfold bind. rewrite length_map.
    apply (mapifyString_loop_pairs d1 pairs [] [] (length pairs + 1));
      [exact Hlen|lia|].
    apply (Forall_impl _ (fun e H => conj (proj1 H)
                            (conj (proj1 (proj2 H)) (proj1 (proj2 (proj2 H)))))
             Hall).
  - apply Forall_map. refine (Forall_impl _ _ Hall).
    intros e (Hk & _ & _ & Hk2 & Hv2). unfold write_pair. split.
    + destruct (fst e); [congruence|discriminate].
    + intros Hin. apply in_app_or in Hin. destruct Hin as [Hin|Hin]; [tauto|].
      simpl in Hin. destruct Hin as [Hin|Hin]; [|tauto].
      apply Hd. exact Hin.
Qed.

Lemma mapifyString_reads_pairs_witness :
  mapifyString isspace_C (lit "b:2,a:1,c:,b:3") (lit ":") (lit ",") true
  = Ret [(lit "a", lit "1"); (lit "b", lit "3"); (lit "c", [])].
Proof.
  apply (mapifyString_reads_pairs isspace_C ":"%char ","%char
           [(lit "b", lit "2"); (lit "a", lit "1"); (lit "c", []);
            (lit "b", lit "3")] true).
  - discriminate.
  - repeat constructor; simpl; try discriminate;
      intros H; repeat (destruct H as [H|H]; [discriminate|]); exact H.
  - intros _. reflexivity.
  - discriminate.
Defined.

(** ** [eraseNonNumericChars] *)

Lemma digits_value_nonneg (ds : str) :
  forallb isdigit ds = true -> 0 <= digits_value ds.
Proof.
  intros Hds. unfold digits_value.
  assert (H : forall acc, 0 <= acc ->
            0 <= fold_left (fun acc c => 10 * acc + digit_value c) ds acc).
  { induction ds as [|c ds IH]; intros acc Hacc; [exact Hacc|].
    change (forallb isdigit (c :: ds)) with (isdigit c && forallb isdigit ds)
      in Hds.
    apply andb_true_iff in Hds. destruct Hds as [Hc Hds].
    cbn [fold_left]. apply IH; [exact Hds|].
    unfold isdigit in Hc. apply andb_true_iff in Hc. destruct Hc as [Hlo _].
    apply Nat.leb_le in Hlo. unfold digit_value. lia. }
  apply H. lia.
Qed.

Lemma eraseNonNumericChars_digits (s : str) :
  forallb isdigit (eraseNonNumericChars s) = true.
Proof.
  unfold eraseNonNumericChars, isNotDigit.
  induction s as [|c s IH]; [reflexivity|]. simpl.
  destruct (isdigit c) eqn:E; simpl; [rewrite E|]; exact IH.
Qed.

Lemma eraseNonNumericChars_nil (s : str) :
  is_nil (eraseNonNumericChars s) = negb (existsb isdigit s).
Proof.
  unfold eraseNonNumericChars, isNotDigit.
  induction s as [|c s IH]; [reflexivity|]. simpl.
  destruct (isdigit c); simpl; [reflexivity|exact IH].
Qed.

Lemma eraseNonNumericChars_length (s : str) :
  len (eraseNonNumericChars s) <= len s.
Proof.
  unfold eraseNonNumericChars, len. pose proof (filter_length_le
    (fun c => negb (isNotDigit c)) s). lia.
Qed.

Lemma strip_minus_digits (ds : str) :
  forallb isdigit ds = true -> strip_minus ds = (false, ds).
Proof.
  intros Hds. destruct ds as [|a ds]; [reflexivity|]. simpl in *.
  destruct (Ascii.eqb_spec a "-") as [->|]; [discriminate|reflexivity].
Qed.

(** X22: what [eraseNonNumericChars] leaves holds digits only, a text of
    digits is left as it is, and [isInteger] accepts the result exactly
    when the text holds a digit and the digits that are left, read as one
    number, fit an [int]. *)
Theorem eraseNonNumericChars_integer (s : str) :
  len s <= int_max ->
  forallb isdigit (eraseNonNumericChars s) = true
  /\ (forallb isdigit s = true -> eraseNonNumericChars s = s)
  /\ isInteger (eraseNonNumericChars s)
     = Ret (existsb isdigit s
            && (digits_value (eraseNonNumericChars s) <=? int_max)).
Proof.
  intros Hs. split; [apply eraseNonNumericChars_digits|]. split.
  - intros Hall. unfold eraseNonNumericChars, isNotDigit.
    induction s as [|c s IH]; [reflexivity|]. simpl in *.
    apply andb_true_iff in Hall. destruct Hall as [Hc Hall].
    rewrite Hc. simpl. rewrite IH; [reflexivity| |exact Hall].
    unfold len in *. simpl length in Hs. lia.
  - pose proof (eraseNonNumericChars_digits s) as Hd.
    pose proof (eraseNonNumericChars_length s) as Hl.
    pose proof (eraseNonNumericChars_nil s) as Hn.
    pose proof (digits_value_nonneg _ Hd) as Hv.
    rewrite isInteger_unfold by lia.
    rewrite (strip_minus_digits _ Hd). simpl fst. simpl snd. cbv zeta.
    unfold signed_value. rewrite Hd, Hn, negb_involutive. simpl andb.
    replace (int_min <=? digits_value (eraseNonNumericChars s)) with true;
      [rewrite andb_true_r; reflexivity|].
    symmetry. apply Z.leb_le. unfold int_min. lia.
Qed.

Lemma eraseNonNumericChars_integer_witness :
  len (lit "+1 (555) 010") <= int_max
  /\ forallb isdigit (eraseNonNumericChars (lit "+1 (555) 010")) = true
  /\ (forallb isdigit (lit "+1 (555) 010") = true ->
      eraseNonNumericChars (lit "+1 (555) 010") = lit "+1 (555) 010")
  /\ isInteger (eraseNonNumericChars (lit "+1 (555) 010"))
     = Ret (existsb isdigit (lit "+1 (555) 010")
            && (digits_value (eraseNonNumericChars (lit "+1 (555) 010"))
                <=? int_max)).
Proof.
  split; [discriminate|].
  apply (eraseNonNumericChars_integer (lit "+1 (555) 010")). discriminate.
Defined.
